(** * Kitaev-Hamiltonian experiment: circuit generation

    A shallow embedding of [mzm-generation/experiment.py]: the class
    [KitaevHamiltonianExperiment] with its methods [circuits],
    [_circuits], [_generate_circuit], [_base_circuit] and
    [circuit_parameters], the [functools.lru_cache] wrapper around
    [_base_circuit], and the [itertools.product] loop of
    [circuit_parameters].

    Python objects live in an explicit store: experiment instances (their
    attributes), the circuits created by [measure_pauli_string] (their
    [metadata] attribute is assigned after creation), and the memo table
    of [functools.lru_cache], which belongs to the decorated function and
    is therefore shared by every instance of the class.  A trace of the
    calls that build circuits ([kitaev_hamiltonian], the diagonalization,
    [FermionicGaussianState], [measure_pauli_string]) is kept beside the
    store, so that statements of the form "computed at most once" can be
    read off it. *)

From Stdlib Require Import Ascii String.
From stdpp Require Import base ssreflect list gmap strings.

Set Default Proof Using "Type".
Set Warnings "-rewrite-rw".

(** ** Outcomes of Python calls *)

(** A call either returns a value or raises. *)
Inductive Outcome (E A : Type) : Type :=
| Ok (a : A)
| Raise (x : E).
Arguments Ok {E A} a.
Arguments Raise {E A} x.

(** ** The imported collaborators

    [kitaev_hamiltonian], [measure_pauli_string] and
    [measurement_pauli_strings] come from [mzm_generation];
    [FermionicGaussianState] from [qiskit_nature]; the method
    [diagonalizing_bogoliubov_transform] belongs to the Hamiltonian
    object; [BaseExperiment.__init__], called as [super().__init__], is
    the framework's.  None of them is defined in [experiment.py], so the
    embedding is parametric in them.  The coupling values are never
    computed with by the experiment class: they are passed on and used as
    parts of a memo key, so only their equality matters. *)
Class Collaborators : Type := {
  Coupling : Type;
  Coupling_eq_dec :: EqDecision Coupling;
  Exn : Type;
  Hamiltonian : Type;
  TransformationMatrix : Type;
  BaseCircuit : Type;
  CircuitData : Type;
  Backend : Type;
  (** raised by an attribute access on an object that does not exist *)
  AttributeError : Exn;
  kitaev_hamiltonian :
    nat → Coupling → Coupling → Coupling → Outcome Exn Hamiltonian;
  diagonalizing_bogoliubov_transform :
    Hamiltonian → Outcome Exn TransformationMatrix;
  FermionicGaussianState :
    TransformationMatrix → list Z → Outcome Exn BaseCircuit;
  (** Modelled from the spec: [measure_pauli_string] is not in
      [experiment.py]; following the spec's [MeasurementAppender.append]
      it is non-mutating and returns a new circuit, here the data of the
      circuit object that the caller then owns. *)
  measure_pauli_string : BaseCircuit → string → Outcome Exn CircuitData;
  measurement_pauli_strings : nat → list string;
  (** [BaseExperiment.__init__(qubits, backend)]: it may raise; what it
      stores are the framework's own attributes, none of which
      [experiment.py] reads. *)
  BaseExperiment_init : list nat → option Backend → Outcome Exn unit;
}.

Section Experiment.
Context `{Collaborators}.

(** ** Data model *)

(** The namedtuple [CircuitParameters]. *)
Record CircuitParameters : Type := mkCircuitParameters {
  tunneling : Coupling;
  superconducting : Coupling;
  chemical_potential : Coupling;
  occupied_orbitals : list Z;
  measurement_basis : string;
  measurement_label : string;
}.

(** The attributes that [__init__] stores on an instance. *)
Record Attributes : Type := mkAttributes {
  experiment_id : string;
  n_modes : nat;
  tunneling_values : list Coupling;
  superconducting_values : list Coupling;
  chemical_potential_values : list Coupling;
  occupied_orbitals_list : list (list Z);
}.

(** A circuit object: what [measure_pauli_string] built, and the
    [metadata] dictionary. *)
Record QuantumCircuit : Type := mkQuantumCircuit {
  qc_data : CircuitData;
  qc_metadata : gmap string CircuitParameters;
}.

(** The key under which [functools.lru_cache] files a call of the method
    [_base_circuit]: all positional arguments, [self] included. *)
Definition CacheKey : Type :=
  nat * Coupling * Coupling * Coupling * list Z.

(** The calls that build circuits, as recorded in the trace.  The
    Hamiltonian and the transformation matrix are named by the arguments
    they were built from.  The two other collaborators are not recorded:
    of [measurement_pauli_strings] the class uses the value only, and
    [BaseExperiment.__init__] builds no circuit. *)
Inductive Call : Type :=
| CallKitaevHamiltonian (n : nat) (t s mu : Coupling)
| CallDiagonalize (n : nat) (t s mu : Coupling)
| CallFermionicGaussianState (n : nat) (t s mu : Coupling) (occ : list Z)
| CallMeasurePauliString (label : string).

#[global] Instance Call_eq_dec : EqDecision Call.
Proof. solve_decision. Defined.

(** An event: the instance on whose behalf the call was made, and the
    call. *)
Definition Event : Type := nat * Call.

Record State : Type := mkState {
  (** instances of [KitaevHamiltonianExperiment], addressed by identity *)
  objects : list Attributes;
  (** the memo table of [_base_circuit], most recently used first *)
  base_cache : list (CacheKey * BaseCircuit);
  (** circuit objects, addressed by identity *)
  heap : list QuantumCircuit;
  (** calls made to the circuit-building collaborators, latest first *)
  trace : list Event;
}.

Definition initial_state : State :=
  {| objects := []; base_cache := []; heap := []; trace := [] |}.

(** ** The monad of Python computations: state and exceptions *)

Definition M (A : Type) : Type := State → Outcome Exn A * State.

#[global] Instance M_ret : MRet M := λ A a st, (Ok a, st).
#[global] Instance M_bind : MBind M := λ A B f m st,
  match m st with
  | (Ok a, st') => f a st'
  | (Raise x, st') => (Raise x, st')
  end.

(** [self.<attr>] *)
Definition getattr {A} (self : nat) (attr : Attributes → A) : M A := λ st,
  match objects st !! self with
  | Some o => (Ok (attr o), st)
  | None => (Raise AttributeError, st)
  end.

(** A call to a circuit-building collaborator: recorded, then its
    outcome. *)
Definition call {A} (ev : Event) (r : Outcome Exn A) : M A := λ st,
  (r, {| objects := objects st; base_cache := base_cache st;
         heap := heap st; trace := ev :: trace st |}).

Definition get_cache : M (list (CacheKey * BaseCircuit)) := λ st,
  (Ok (base_cache st), st).

Definition set_cache (c : list (CacheKey * BaseCircuit)) : M unit := λ st,
  (Ok (), {| objects := objects st; base_cache := c;
             heap := heap st; trace := trace st |}).

(** A new circuit object; its identity is returned. *)
Definition new_circuit (d : CircuitData) : M nat := λ st,
  (Ok (length (heap st)),
   {| objects := objects st; base_cache := base_cache st;
      heap := heap st ++ [ {| qc_data := d; qc_metadata := ∅ |} ];
      trace := trace st |}).

(** [circuit.metadata = md] *)
Definition set_metadata (circuit : nat)
    (md : gmap string CircuitParameters) : M unit := λ st,
  (Ok (),
   {| objects := objects st; base_cache := base_cache st;
      heap := alter (λ c, {| qc_data := qc_data c; qc_metadata := md |})
                    circuit (heap st);
      trace := trace st |}).

(** ** [__init__] *)

(** A new instance, its attributes not yet assigned apart from those
    given; its identity is returned. *)
Definition new_instance (o : Attributes) : M nat := λ st,
  (Ok (length (objects st)),
   {| objects := objects st ++ [o]; base_cache := base_cache st;
      heap := heap st; trace := trace st |}).

(** A call to a collaborator that is not recorded. *)
Definition external {A} (r : Outcome Exn A) : M A := λ st, (r, st).

(** [KitaevHamiltonianExperiment(experiment_id, qubits, ..., backend)]:
    a new instance on which [__init__] runs.  The attributes are assigned
    first, then [super().__init__(qubits=qubits, backend=backend)] is
    called; if it raises, so does the construction, and the caller gets no
    instance (the object stays in the store, unreferenced). *)
Definition KitaevHamiltonianExperiment (eid : string) (qubits : list nat)
    (tunneling_values superconducting_values
       chemical_potential_values : list Coupling)
    (occupied_orbitals_list : list (list Z)) (backend : option Backend)
    : M nat :=
  self ← new_instance
    {| experiment_id := eid;
       n_modes := length qubits;
       tunneling_values := tunneling_values;
       superconducting_values := superconducting_values;
       chemical_potential_values := chemical_potential_values;
       occupied_orbitals_list := occupied_orbitals_list |};
  _ ← external (BaseExperiment_init qubits backend);
  mret self.

(** ** [functools.lru_cache]

    The decorator is applied bare, so the table holds at most 128
    entries ([maxsize=128], [typed=False]); a hit moves the entry to the
    most-recent end, a miss on a full table drops the least recently
    used entry.  A call that raises stores nothing. *)
Definition lru_maxsize : nat := 128.

Fixpoint cache_get (k : CacheKey) (c : list (CacheKey * BaseCircuit))
    : option BaseCircuit :=
  match c with
  | [] => None
  | (k', v) :: c' => if decide (k' = k) then Some v else cache_get k c'
  end.

Definition cache_remove (k : CacheKey) (c : list (CacheKey * BaseCircuit))
    : list (CacheKey * BaseCircuit) :=
  filter (λ kv, kv.1 ≠ k) c.

Definition cache_touch (k : CacheKey) (v : BaseCircuit)
    (c : list (CacheKey * BaseCircuit)) : list (CacheKey * BaseCircuit) :=
  (k, v) :: cache_remove k c.

Definition cache_put (k : CacheKey) (v : BaseCircuit)
    (c : list (CacheKey * BaseCircuit)) : list (CacheKey * BaseCircuit) :=
  if decide (length c < lru_maxsize) then (k, v) :: c
  else (k, v) :: removelast c.

(** ** [_base_circuit] *)

(** The decorated function. *)
Definition _base_circuit_body (self : nat) (t s mu : Coupling)
    (occ : list Z) : M BaseCircuit :=
  n ← getattr self n_modes;
  hamiltonian ←
    call (self, CallKitaevHamiltonian n t s mu) (kitaev_hamiltonian n t s mu);
  transformation_matrix ←
    call (self, CallDiagonalize n t s mu)
         (diagonalizing_bogoliubov_transform hamiltonian);
  call (self, CallFermionicGaussianState n t s mu occ)
       (FermionicGaussianState transformation_matrix occ).

(** The method as decorated. *)
Definition _base_circuit (self : nat) (t s mu : Coupling) (occ : list Z)
    : M BaseCircuit :=
  let key : CacheKey := (self, t, s, mu, occ) in
  c ← get_cache;
  match cache_get key c with
  | Some v => _ ← set_cache (cache_touch key v c); mret v
  | None =>
      v ← _base_circuit_body self t s mu occ;
      c' ← get_cache;
      _ ← set_cache (cache_put key v c');
      mret v
  end.

(** ** [_generate_circuit]

    The result is [Some circuit], or [None] for Python's [None] when the
    function falls off its end. *)
Definition _generate_circuit (self : nat) (circuit_params : CircuitParameters)
    : M (option nat) :=
  base_circuit ← _base_circuit self
    (tunneling circuit_params) (superconducting circuit_params)
    (chemical_potential circuit_params) (occupied_orbitals circuit_params);
  if decide (measurement_basis circuit_params = "pauli") then
    data ← call (self, CallMeasurePauliString (measurement_label circuit_params))
             (measure_pauli_string base_circuit
                (measurement_label circuit_params));
    circuit ← new_circuit data;
    _ ← set_metadata circuit {[ "params" := circuit_params ]};
    mret (Some circuit)
  else mret None.

(** ** [itertools.product]

    As the library documents it: the pools are copied, and the result is
    built pool by pool, [result = [x+[y] for x in result for y in pool]],
    starting from the single empty tuple. *)
Definition product_step {A B : Type} (result : list A) (pool : list B)
    : list (A * B) :=
  x ← result; y ← pool; [(x, y)].

Definition SweepPoint : Type :=
  unit * Coupling * Coupling * Coupling * list Z.

Definition product4 (ts ss mus : list Coupling) (occs : list (list Z))
    : list SweepPoint :=
  product_step (product_step (product_step (product_step [()] ts) ss) mus)
               occs.

(** The record yielded in the body of the inner loop. *)
Definition record_at (p : SweepPoint) (pauli_string : string)
    : CircuitParameters :=
  let '(_, tunneling, superconducting, chemical_potential,
        occupied_orbitals) := p in
  {| tunneling := tunneling;
     superconducting := superconducting;
     chemical_potential := chemical_potential;
     occupied_orbitals := occupied_orbitals;
     measurement_basis := "pauli";
     measurement_label := pauli_string |}.

(** ** Generators

    A generator object is a suspended computation.  Its state is passed
    explicitly; [next] returns [Some] item, or [None] for
    [StopIteration], together with the state in which the generator is
    left.  A generator whose body raised is finished. *)
Definition Next (G A : Type) : Type :=
  G → State → Outcome Exn (option A) * G * State.

Definition gen_next {G A : Type} (body : G → M (option A * G)) (closed : G)
    : Next G A := λ g st,
  match body g st with
  | (Ok (r, g'), st') => (Ok r, g', st')
  | (Raise x, st') => (Raise x, closed, st')
  end.

(** *** [circuit_parameters]

    Not yet started; suspended at the [yield] with the rest of the
    product, the current point and the rest of the Pauli strings; or
    finished. *)
Inductive ParamGen : Type :=
| PStart
| PYield (rest : list SweepPoint) (p : SweepPoint) (labels : list string)
| PDone.

(** The outer loop resumed: take the next point of the product, call
    [measurement_pauli_strings(self.n_modes)] and run to the first
    [yield]. *)
Fixpoint param_outer (self : nat) (rest : list SweepPoint)
    : M (option CircuitParameters * ParamGen) :=
  match rest with
  | [] => mret (None, PDone)
  | p :: rest' =>
      n ← getattr self n_modes;
      match measurement_pauli_strings n with
      | [] => param_outer self rest'
      | l :: labels => mret (Some (record_at p l), PYield rest' p labels)
      end
  end.

Definition param_body (self : nat) (g : ParamGen)
    : M (option CircuitParameters * ParamGen) :=
  match g with
  | PStart =>
      ts ← getattr self tunneling_values;
      ss ← getattr self superconducting_values;
      mus ← getattr self chemical_potential_values;
      occs ← getattr self occupied_orbitals_list;
      param_outer self (product4 ts ss mus occs)
  | PYield rest p (l :: labels) =>
      mret (Some (record_at p l), PYield rest p labels)
  | PYield rest p [] => param_outer self rest
  | PDone => mret (None, PDone)
  end.

(** [self.circuit_parameters()] creates the generator; [next] runs it to
    its next [yield]. *)
Definition circuit_parameters : ParamGen := PStart.

Definition circuit_parameters_next (self : nat)
    : Next ParamGen CircuitParameters :=
  gen_next (param_body self) PDone.

(** *** [_circuits]

    The generator holds the generator of [circuit_parameters] it iterates
    over. *)
Inductive CircuitGen : Type :=
| CRun (params : ParamGen)
| CDone.

Definition _circuits : CircuitGen := CRun circuit_parameters.

Definition _circuits_next (self : nat) : Next CircuitGen (option nat) :=
  λ g st,
  match g with
  | CDone => (Ok None, CDone, st)
  | CRun params =>
      match circuit_parameters_next self params st with
      | (Ok (Some circuit_params), params', st') =>
          match _generate_circuit self circuit_params st' with
          | (Ok circuit, st'') => (Ok (Some circuit), CRun params', st'')
          | (Raise x, st'') => (Raise x, CDone, st'')
          end
      | (Ok None, _, st') => (Ok None, CDone, st')
      | (Raise x, _, st') => (Raise x, CDone, st')
      end
  end.

(** *** [list(generator)]

    [list] calls [next] until [StopIteration] and collects the items; an
    exception ends it.  The loop is bounded by the structure of the
    generator: the Pauli strings left for the current point, then the
    points left in the product. *)
Fixpoint for_labels {B : Type} (body : CircuitParameters → M B)
    (p : SweepPoint) (labels : list string) : M (list B) :=
  match labels with
  | [] => mret []
  | l :: labels' =>
      b ← body (record_at p l);
      bs ← for_labels body p labels';
      mret (b :: bs)
  end.

Fixpoint for_points {B : Type} (self : nat) (body : CircuitParameters → M B)
    (rest : list SweepPoint) : M (list B) :=
  match rest with
  | [] => mret []
  | p :: rest' =>
      n ← getattr self n_modes;
      bs ← for_labels body p (measurement_pauli_strings n);
      bs' ← for_points self body rest';
      mret (bs ++ bs')
  end.

(** Every remaining item of a [circuit_parameters] generator, each passed
    through [body] as soon as it is yielded. *)
Definition for_params {B : Type} (self : nat)
    (body : CircuitParameters → M B) (g : ParamGen) : M (list B) :=
  match g with
  | PStart =>
      ts ← getattr self tunneling_values;
      ss ← getattr self superconducting_values;
      mus ← getattr self chemical_potential_values;
      occs ← getattr self occupied_orbitals_list;
      for_points self body (product4 ts ss mus occs)
  | PYield rest p labels =>
      bs ← for_labels body p labels;
      bs' ← for_points self body rest;
      mret (bs ++ bs')
  | PDone => mret []
  end.

(** [list(self.circuit_parameters())] *)
Definition list_circuit_parameters (self : nat) (g : ParamGen)
    : M (list CircuitParameters) :=
  for_params self mret g.

(** [list(g)] for a generator [g] of [_circuits]. *)
Definition list_circuits (self : nat) (g : CircuitGen)
    : M (list (option nat)) :=
  match g with
  | CRun params => for_params self (_generate_circuit self) params
  | CDone => mret []
  end.

(** ** [circuits] *)
Definition circuits (self : nat) : M (list (option nat)) :=
  list_circuits self _circuits.

(** A caller that takes at most [k] items from a generator of
    [_circuits] and then leaves it alone. *)
Fixpoint take_circuits (self : nat) (k : nat) (g : CircuitGen) (st : State)
    : Outcome Exn (list (option nat)) * CircuitGen * State :=
  match k with
  | 0 => (Ok [], g, st)
  | S k' =>
      match _circuits_next self g st with
      | (Ok (Some c), g', st') =>
          match take_circuits self k' g' st' with
          | (Ok cs, g'', st'') => (Ok (c :: cs), g'', st'')
          | (Raise x, g'', st'') => (Raise x, g'', st'')
          end
      | (Ok None, g', st') => (Ok [], g', st')
      | (Raise x, g', st') => (Raise x, g', st')
      end
  end.

(** ** Notions used to state the properties *)

(** [for x in l: body(x)], the results collected in order. *)
Fixpoint for_list {A B : Type} (body : A → M B) (l : list A) : M (list B) :=
  match l with
  | [] => mret []
  | x :: l' => b ← body x; bs ← for_list body l'; mret (b :: bs)
  end.

(** The records a [circuit_parameters] generator of an instance with
    attributes [a] has yet to yield. *)
Definition point_records (a : Attributes) (p : SweepPoint)
    : list CircuitParameters :=
  record_at p <$> measurement_pauli_strings (n_modes a).

Definition remaining (a : Attributes) (g : ParamGen)
    : list CircuitParameters :=
  match g with
  | PStart =>
      product4 (tunneling_values a) (superconducting_values a)
               (chemical_potential_values a) (occupied_orbitals_list a)
        ≫= point_records a
  | PYield rest p labels =>
      (record_at p <$> labels) ++ (rest ≫= point_records a)
  | PDone => []
  end.

(** What the body of [_base_circuit] returns for an instance of [n]
    modes: the three collaborators in sequence. *)
Definition base_circuit_value (n : nat) (t s mu : Coupling) (occ : list Z)
    : Outcome Exn BaseCircuit :=
  match kitaev_hamiltonian n t s mu with
  | Ok h =>
      match diagonalizing_bogoliubov_transform h with
      | Ok tm => FermionicGaussianState tm occ
      | Raise x => Raise x
      end
  | Raise x => Raise x
  end.

(** The calls it makes on the way, latest first. *)
Definition base_circuit_calls (self n : nat) (t s mu : Coupling)
    (occ : list Z) : list Event :=
  match kitaev_hamiltonian n t s mu with
  | Ok h =>
      match diagonalizing_bogoliubov_transform h with
      | Ok tm =>
          [(self, CallFermionicGaussianState n t s mu occ);
           (self, CallDiagonalize n t s mu);
           (self, CallKitaevHamiltonian n t s mu)]
      | Raise _ =>
          [(self, CallDiagonalize n t s mu);
           (self, CallKitaevHamiltonian n t s mu)]
      end
  | Raise _ => [(self, CallKitaevHamiltonian n t s mu)]
  end.

#[global] Instance Event_eq_dec : EqDecision Event.
Proof. unfold Event. apply _. Defined.

#[global] Instance CacheKey_eq_dec : EqDecision CacheKey.
Proof. unfold CacheKey. apply _. Defined.

(** How often a call occurs in a trace. *)
Definition count_event (ev : Event) (tr : list Event) : nat :=
  length (filter (λ e, e = ev) tr).

(** The memo key of the base circuit a record asks for. *)
Definition key_of (self : nat) (cp : CircuitParameters) : CacheKey :=
  (self, tunneling cp, superconducting cp, chemical_potential cp,
   occupied_orbitals cp).

(** [circuit.metadata["params"]] of a generated item. *)
Definition carried_record (st : State) (c : option nat)
    : option CircuitParameters :=
  a ← c; qc ← heap st !! a; qc_metadata qc !! "params".

(** A lifetime of the memo table: generation requests, by any instances,
    one after the other; a request that raises does not stop the
    next. *)
Fixpoint run_requests (reqs : list (nat * CircuitParameters)) (st : State)
    : State :=
  match reqs with
  | [] => st
  | (self, cp) :: reqs' =>
      run_requests reqs' (_generate_circuit self cp st).2
  end.

(** The memo table after a call of [_base_circuit] that found [c]. *)
Definition cache_after (k : CacheKey) (r : Outcome Exn BaseCircuit)
    (c : list (CacheKey * BaseCircuit)) : list (CacheKey * BaseCircuit) :=
  match cache_get k c, r with
  | Some v, _ => cache_touch k v c
  | None, Ok v => cache_put k v c
  | None, Raise _ => c
  end.

(** A loop body that leaves the instances as they are. *)
Definition keeps_objects {A B : Type} (body : A → M B) : Prop :=
  ∀ x st, objects (body x st).2 = objects st.

(** The records of an instance, in the order in which a fresh generator
    yields them. *)
Definition records a : list CircuitParameters :=
  remaining a circuit_parameters.

(** The memo key of a request. *)
Definition request_key (r : nat * CircuitParameters) : CacheKey :=
  key_of r.1 r.2.

(** [x] is the error one of the collaborators raises when called in the
    processing of the record [cp] by an instance of [n] modes. *)
Definition raised_by_collaborator (n : nat) (cp : CircuitParameters)
    (x : Exn) : Prop :=
  kitaev_hamiltonian n (tunneling cp) (superconducting cp)
    (chemical_potential cp) = Raise x
  ∨ (∃ h,
       kitaev_hamiltonian n (tunneling cp) (superconducting cp)
         (chemical_potential cp) = Ok h
       ∧ (diagonalizing_bogoliubov_transform h = Raise x
          ∨ ∃ tm,
              diagonalizing_bogoliubov_transform h = Ok tm
              ∧ FermionicGaussianState tm (occupied_orbitals cp) = Raise x))
  ∨ (∃ base,
       measurement_basis cp = "pauli"
       ∧ measure_pauli_string base (measurement_label cp) = Raise x).

(** ** Notions used to state further properties *)

(** The base circuit a request gets: the one in the memo table, or else
    the one the body computes. *)
Definition cached_or_computed (self : nat) (a : Attributes)
    (cp : CircuitParameters) (st : State) : Outcome Exn BaseCircuit :=
  match cache_get (key_of self cp) (base_cache st) with
  | Some v => Ok v
  | None =>
      base_circuit_value (n_modes a) (tunneling cp) (superconducting cp)
        (chemical_potential cp) (occupied_orbitals cp)
  end.

(** The calls a request makes for its base circuit: none on a hit. *)
Definition miss_calls (self : nat) (a : Attributes)
    (cp : CircuitParameters) (st : State) : list Event :=
  match cache_get (key_of self cp) (base_cache st) with
  | Some _ => []
  | None =>
      base_circuit_calls self (n_modes a) (tunneling cp) (superconducting cp)
        (chemical_potential cp) (occupied_orbitals cp)
  end.

(** Calls of [kitaev_hamiltonian] in a trace, on whatever arguments. *)
Definition is_build (e : Event) : bool :=
  match e.2 with
  | CallKitaevHamiltonian _ _ _ _ => true
  | _ => false
  end.

Definition builds (tr : list Event) : nat :=
  length (filter (λ e, is_build e) tr).

(** Calls of [measure_pauli_string] in a trace. *)
Definition is_measure (e : Event) : bool :=
  match e.2 with
  | CallMeasurePauliString _ => true
  | _ => false
  end.

Definition measures (tr : list Event) : nat :=
  length (filter (λ e, is_measure e) tr).

(** The memo table holds no key twice and no more than [lru_maxsize]
    entries. *)
Definition table_ok (st : State) : Prop :=
  NoDup (base_cache st).*1 ∧ length (base_cache st) ≤ lru_maxsize.

(** Every entry of the memo table is what the body of [_base_circuit]
    returns for its key. *)
Definition cache_consistent (st : State) : Prop :=
  ∀ self t s mu occ v,
    ((self, t, s, mu, occ), v) ∈ base_cache st →
    ∃ a,
      objects st !! self = Some a
      ∧ base_circuit_value (n_modes a) t s mu occ = Ok v.

(** What the collaborators make of a record with basis ["pauli"], the
    memo table left aside: the base circuit, then the measurement. *)
Definition record_outcome (n : nat) (cp : CircuitParameters)
    : Outcome Exn CircuitData :=
  match base_circuit_value n (tunneling cp) (superconducting cp)
          (chemical_potential cp) (occupied_orbitals cp) with
  | Ok base => measure_pauli_string base (measurement_label cp)
  | Raise x => Raise x
  end.

End Experiment.

(** ** A concrete set of collaborators

    The collaborators as the spec describes them, over symbolic circuits:
    enough to run the experiment class on concrete sweeps. *)
Module Scenario.

(** The error taxonomy of the spec, and Python's [AttributeError]. *)
Inductive Error : Type :=
| InvalidParameterError
| DiagonalizationError
| InvalidOccupationError
| InvalidLabelError
| PyAttributeError.

(** Modelled from the spec: [HamiltonianBuilder.build] is a pure function
    of the mode count and the three couplings and fails with
    [InvalidParameterError] if [n < 1].  The matrix is kept symbolic. *)
Definition build (n : nat) (t s mu : Z) : Outcome Error (nat * Z * Z * Z) :=
  if decide (n < 1) then Raise InvalidParameterError else Ok (n, t, s, mu).

(** Modelled from the spec: [BogoliubovDiagonalizer.diagonalize] returns
    the transformation of a valid Hamiltonian; every Hamiltonian that
    [build] returns is valid.  The transformation is kept symbolic. *)
Definition diagonalize (h : nat * Z * Z * Z)
    : Outcome Error (nat * Z * Z * Z) :=
  Ok h.

Definition valid_occupation (n : nat) (occ : list Z) : bool :=
  forallb (λ i, bool_decide (0 ≤ i < Z.of_nat n)%Z) occ
  && bool_decide (NoDup occ).

(** Modelled from the spec: [StatePreparer.prepare] fails with
    [InvalidOccupationError] if any index is out of range or duplicated. *)
Definition prepare (tm : nat * Z * Z * Z) (occ : list Z)
    : Outcome Error (nat * Z * Z * Z * list Z) :=
  if valid_occupation tm.1.1.1 occ then Ok (tm, occ)
  else Raise InvalidOccupationError.

Definition pauli_letter (a : ascii) : bool :=
  bool_decide (a ∈ ["I"; "X"; "Y"; "Z"]%char).

(** Modelled from the spec: [MeasurementAppender.append] fails with
    [InvalidLabelError] if the label's length differs from the qubit
    count or a character is outside the alphabet. *)
Definition append (base : nat * Z * Z * Z * list Z) (label : string)
    : Outcome Error (nat * Z * Z * Z * list Z * string) :=
  if bool_decide (String.length label = base.1.1.1.1)
     && forallb pauli_letter (list_ascii_of_string label)
  then Ok (base, label)
  else Raise InvalidLabelError.

(** Modelled from the spec: [MeasurementAppender.enumerate_labels] is
    deterministic and yields a fixed set of labels of length [n]; here
    the two uniform ones. *)
Definition enumerate_labels (n : nat) : list string :=
  [string_of_list_ascii (replicate n "Z"%char);
   string_of_list_ascii (replicate n "X"%char)].

(** The framework's constructor accepts every list of qubits and every
    backend. *)
Definition accept (qubits : list nat) (backend : option unit)
    : Outcome Error unit :=
  Ok ().

#[local] Instance collaborators : Collaborators := {|
  Coupling := Z;
  Exn := Error;
  Hamiltonian := nat * Z * Z * Z;
  TransformationMatrix := nat * Z * Z * Z;
  BaseCircuit := nat * Z * Z * Z * list Z;
  CircuitData := nat * Z * Z * Z * list Z * string;
  AttributeError := PyAttributeError;
  kitaev_hamiltonian := build;
  diagonalizing_bogoliubov_transform := diagonalize;
  FermionicGaussianState := prepare;
  measure_pauli_string := append;
  measurement_pauli_strings := enumerate_labels;
  Backend := unit;
  BaseExperiment_init := accept;
|}.

(** The state after constructing one experiment in a fresh interpreter,
    and the instance. *)
Definition setup (qubits : list nat) (ts ss mus : list Z)
    (occs : list (list Z)) : State :=
  (KitaevHamiltonianExperiment "exp" qubits ts ss mus occs None
     initial_state).2.

(** A record of the scenario. *)
Definition record (t s mu : Z) (occ : list Z) (basis label : string)
    : CircuitParameters :=
  {| tunneling := t; superconducting := s; chemical_potential := mu;
     occupied_orbitals := occ; measurement_basis := basis;
     measurement_label := label |}.

(** The attributes [setup] stores. *)
Definition attributes (qubits : list nat) (ts ss mus : list Z)
    (occs : list (list Z)) : Attributes :=
  {| experiment_id := "exp"; n_modes := length qubits;
     tunneling_values := ts; superconducting_values := ss;
     chemical_potential_values := mus; occupied_orbitals_list := occs |}.

(** The scenario of the spec: two modes, tunneling 1.0, superconducting
    0.5, chemical potential 0.0 (couplings in tenths), occupation
    patterns [()] and [(0,)]. *)
Definition two_modes : State := setup [0; 1] [10%Z] [5%Z] [0%Z] [[]; [0%Z]].
Definition two_modes_attributes : Attributes :=
  attributes [0; 1] [10%Z] [5%Z] [0%Z] [[]; [0%Z]].

(** The same with the tunneling value listed twice. *)
Definition repeated_tunneling : State :=
  setup [0; 1] [10%Z; 10%Z] [5%Z] [0%Z] [[]].

(** The same with an occupation pattern naming a mode that does not
    exist. *)
Definition invalid_occupation : State :=
  setup [0; 1] [10%Z] [5%Z] [0%Z] [[]; [7%Z]].

(** A sweep over 129 chemical potentials. *)
Definition long_sweep : State :=
  setup [0; 1] [10%Z] [5%Z] (Z.of_nat <$> seq 0 129) [[]].

(** What [circuits] returns in the scenario of the spec, and the state it
    leaves. *)
Definition two_modes_circuits : list (option nat) :=
  [Some 0; Some 1; Some 2; Some 3].
Definition two_modes_after : State := (circuits 0 two_modes).2.

(** Four requests in the scenario of the spec: both labels for the empty
    pattern, one for the other pattern, and the first again. *)
Definition four_requests : list (nat * CircuitParameters) :=
  [(0, record 10 5 0 [] "pauli" "ZZ");
   (0, record 10 5 0 [] "pauli" "XX");
   (0, record 10 5 0 [0%Z] "pauli" "ZZ");
   (0, record 10 5 0 [] "pauli" "ZZ")].

(** A sweep whose tunneling sequence is empty. *)
Definition empty_sweep : State := setup [0; 1] [] [5%Z] [0%Z] [[]].

(** The scenario of the spec with a second experiment of the same
    couplings beside the first. *)
Definition two_instances : State :=
  (KitaevHamiltonianExperiment "exp" [0; 1] [10%Z] [5%Z] [0%Z] [[]] None
     two_modes).2.

End Scenario.

(** * Properties *)

Section Properties.
Context `{Collaborators}.
Implicit Types (st : State) (self : nat) (a : Attributes).
Implicit Types (cp : CircuitParameters) (k : CacheKey).

(** ** Running monadic code *)

Lemma bind_run {A B : Type} (m : M A) (f : A → M B) st :
  (m ≫= f) st =
  match m st with
  | (Ok x, st') => f x st'
  | (Raise x, st') => (Raise x, st')
  end.
Proof. reflexivity. Qed.

Lemma getattr_run {A : Type} self (attr : Attributes → A) a st :
  objects st !! self = Some a → getattr self attr st = (Ok (attr a), st).
Proof. intros Ha. unfold getattr. by rewrite Ha. Qed.

(** Unfold the binds in the goal, reading attributes of an instance whose
    attributes [a] are known. *)
Ltac run_with a :=
  repeat first [ rewrite bind_run | rewrite (getattr_run _ _ a) // ].

(** ** The memo table *)

Lemma cache_get_None k (c : list (CacheKey * BaseCircuit)) :
  cache_get k c = None ↔ k ∉ c.*1.
Proof.
  induction c as [|[k' v] c IH]; simpl.
  - split; [intros _; apply not_elem_of_nil | done].
  - rewrite not_elem_of_cons. destruct (decide (k' = k)) as [->|Hne].
    + split; [done | intros [? _]; done].
    + rewrite IH. split; [by intros ?; split | by intros [_ ?]].
Qed.

Lemma cache_get_Some k v (c : list (CacheKey * BaseCircuit)) :
  cache_get k c = Some v → (k, v) ∈ c.
Proof.
  induction c as [|[k' v'] c IH]; simpl; [done |].
  destruct (decide (k' = k)) as [->|Hne].
  - intros [= ->]. apply list_elem_of_here.
  - intros Hg. apply list_elem_of_further. by apply IH.
Qed.

Lemma cache_remove_keys k (c : list (CacheKey * BaseCircuit)) :
  (cache_remove k c).*1 = filter (λ k', k' ≠ k) c.*1.
Proof.
  unfold cache_remove. induction c as [|[k' v] c IH]; [done |].
  rewrite fmap_cons !filter_cons. simpl.
  destruct (decide (k' ≠ k)); csimpl; by rewrite IH.
Qed.

Lemma cache_touch_NoDup k v (c : list (CacheKey * BaseCircuit)) :
  NoDup c.*1 → NoDup (cache_touch k v c).*1.
Proof.
  intros Hnd. unfold cache_touch. rewrite fmap_cons cache_remove_keys. simpl.
  apply NoDup_cons. split.
  - rewrite list_elem_of_filter. intros [? _]. done.
  - by apply NoDup_filter.
Qed.

Lemma cache_touch_keys k v (c : list (CacheKey * BaseCircuit)) k' :
  k ∈ c.*1 → k' ∈ (cache_touch k v c).*1 ↔ k' ∈ c.*1.
Proof.
  intros Hk. unfold cache_touch. rewrite fmap_cons cache_remove_keys. simpl.
  rewrite elem_of_cons list_elem_of_filter.
  destruct (decide (k' = k)) as [->|Hne]; split.
  - done.
  - by left.
  - intros [?|[_ ?]]; done.
  - intros ?. by right.
Qed.

Lemma cache_touch_length k v (c : list (CacheKey * BaseCircuit)) :
  cache_get k c = Some v → length (cache_touch k v c) ≤ length c.
Proof.
  intros Hget%cache_get_Some. unfold cache_touch, cache_remove.
  apply (length_filter_lt (λ kv : CacheKey * BaseCircuit, kv.1 ≠ k)) in Hget.
  - rewrite length_cons. exact Hget.
  - simpl. by intros ?.
Qed.

Lemma cache_put_small k v (c : list (CacheKey * BaseCircuit)) :
  length c < lru_maxsize → cache_put k v c = (k, v) :: c.
Proof. intros Hlt. unfold cache_put. by destruct (decide _). Qed.

Lemma cache_put_length k v (c : list (CacheKey * BaseCircuit)) :
  length c ≤ lru_maxsize → length (cache_put k v c) ≤ lru_maxsize.
Proof.
  intros Hle. unfold cache_put. destruct (decide _) as [Hlt|Hge]; simpl.
  - lia.
  - destruct c as [|kv c] using rev_ind; [unfold lru_maxsize in *; simpl in *; lia |].
    rewrite removelast_last. rewrite length_app in Hle. simpl in Hle. lia.
Qed.

Lemma cache_put_take k v (c : list (CacheKey * BaseCircuit)) :
  length c ≤ lru_maxsize →
  cache_put k v c = (k, v) :: take (lru_maxsize - 1) c.
Proof.
  intros Hlen. unfold cache_put. destruct (decide _) as [Hlt|Hge].
  - rewrite take_ge //. lia.
  - rewrite removelast_firstn_len. do 2 f_equal. lia.
Qed.

(** ** [_base_circuit] and [_generate_circuit], step by step *)

Lemma _base_circuit_body_run self a t s mu occ st :
  objects st !! self = Some a →
  ∃ st',
    _base_circuit_body self t s mu occ st
      = (base_circuit_value (n_modes a) t s mu occ, st')
    ∧ objects st' = objects st
    ∧ base_cache st' = base_cache st
    ∧ heap st' = heap st
    ∧ trace st' = base_circuit_calls self (n_modes a) t s mu occ ++ trace st.
Proof.
  intros Ha.
  unfold _base_circuit_body, base_circuit_value, base_circuit_calls.
  rewrite bind_run (getattr_run _ _ a) // bind_run /call.
  destruct (kitaev_hamiltonian _ _ _ _) as [h|x]; [| by eexists].
  rewrite bind_run.
  destruct (diagonalizing_bogoliubov_transform h) as [tm|x]; by eexists.
Qed.

Lemma _base_circuit_run self a t s mu occ st :
  objects st !! self = Some a →
  let k : CacheKey := (self, t, s, mu, occ) in
  ∃ r st',
    _base_circuit self t s mu occ st = (r, st')
    ∧ objects st' = objects st
    ∧ heap st' = heap st
    ∧ base_cache st' = cache_after k r (base_cache st)
    ∧ match cache_get k (base_cache st) with
      | Some v => r = Ok v ∧ trace st' = trace st
      | None =>
          r = base_circuit_value (n_modes a) t s mu occ
          ∧ trace st'
            = base_circuit_calls self (n_modes a) t s mu occ ++ trace st
      end.
Proof.
  intros Ha k. unfold _base_circuit, cache_after. fold k.
  rewrite bind_run /get_cache.
  destruct (cache_get k (base_cache st)) as [v|] eqn:Hget.
  - by eexists _, _.
  - rewrite bind_run.
    destruct (_base_circuit_body_run self a t s mu occ st Ha)
      as (st1 & -> & Ho & Hc & Hh & Ht).
    destruct (base_circuit_value _ _ _ _ _) as [v|x].
    + rewrite bind_run /=. eexists _, _. split; [done |]. simpl.
      by rewrite Hc.
    + by eexists _, _.
Qed.

Lemma _generate_circuit_run self a cp st :
  objects st !! self = Some a →
  ∃ rb st1,
    _base_circuit self (tunneling cp) (superconducting cp)
      (chemical_potential cp) (occupied_orbitals cp) st = (rb, st1)
    ∧ match rb with
      | Raise x => _generate_circuit self cp st = (Raise x, st1)
      | Ok base =>
          if decide (measurement_basis cp = "pauli") then
            ∃ st',
              _generate_circuit self cp st
                = (match measure_pauli_string base (measurement_label cp) with
                   | Ok _ => Ok (Some (length (heap st)))
                   | Raise x => Raise x
                   end, st')
              ∧ objects st' = objects st
              ∧ base_cache st' = base_cache st1
              ∧ trace st'
                = (self, CallMeasurePauliString (measurement_label cp))
                    :: trace st1
              ∧ heap st'
                = match measure_pauli_string base (measurement_label cp) with
                  | Ok d =>
                      heap st ++ [ {| qc_data := d;
                                     qc_metadata := {[ "params" := cp ]} |} ]
                  | Raise _ => heap st
                  end
          else _generate_circuit self cp st = (Ok None, st1)
      end.
Proof.
  intros Ha.
  destruct (_base_circuit_run self a (tunneling cp) (superconducting cp)
              (chemical_potential cp) (occupied_orbitals cp) st Ha)
    as (rb & st1 & Hrun & Ho & Hh & _).
  exists rb, st1. split; [done |].
  unfold _generate_circuit. rewrite bind_run Hrun.
  destruct rb as [base|x]; [| done].
  destruct (decide (measurement_basis cp = "pauli")); [| done].
  rewrite bind_run /call.
  destruct (measure_pauli_string base (measurement_label cp)) as [d|x].
  - rewrite bind_run /new_circuit bind_run /set_metadata /=.
    rewrite Hh. eexists. split; [done |]. simpl.
    repeat split; try done.
    by rewrite alter_app_r_alt // Nat.sub_diag.
  - eexists. split; [done |]. simpl. by rewrite Hh.
Qed.

(** ** Loops *)

Lemma for_list_app {A B : Type} (body : A → M B) (l1 l2 : list A) st :
  for_list body (l1 ++ l2) st
  = (bs ← for_list body l1; bs' ← for_list body l2; mret (bs ++ bs')) st.
Proof.
  revert st. induction l1 as [|x l1 IH]; intros st; simpl.
  - rewrite bind_run /mret /M_ret bind_run.
    by destruct (for_list body l2 st) as [[bs|e] st'].
  - rewrite !bind_run. destruct (body x st) as [[b|e] st1]; [| done].
    rewrite !bind_run IH !bind_run.
    destruct (for_list body l1 st1) as [[bs|e] st2]; [| done].
    rewrite !bind_run /= !bind_run.
    by destruct (for_list body l2 st2) as [[bs'|e] st3].
Qed.

Lemma for_list_mret {A : Type} (l : list A) st :
  for_list mret l st = (Ok l, st).
Proof.
  induction l as [|x l IH]; [done |].
  by rewrite /= bind_run /= bind_run IH.
Qed.

Lemma for_labels_for_list {B : Type} (body : CircuitParameters → M B)
    (p : SweepPoint) (labels : list string) st :
  for_labels body p labels st = for_list body (record_at p <$> labels) st.
Proof.
  revert st. induction labels as [|l labels IH]; intros st; [done |].
  rewrite fmap_cons /= !bind_run.
  destruct (body _ st) as [[b|e] st1]; [| done].
  by rewrite !bind_run IH.
Qed.

Lemma for_list_keeps_objects {A B : Type} (body : A → M B) (l : list A) st :
  keeps_objects body → objects (for_list body l st).2 = objects st.
Proof.
  intros Hk. revert st. induction l as [|x l IH]; intros st; [done |].
  rewrite /= bind_run. specialize (Hk x st).
  destruct (body x st) as [[b|e] st1]; [| done].
  rewrite bind_run. specialize (IH st1).
  destruct (for_list body l st1) as [[bs|e] st2]; simpl in *; congruence.
Qed.

Lemma for_points_for_list {B : Type} self a
    (body : CircuitParameters → M B) (rest : list SweepPoint) st :
  keeps_objects body →
  objects st !! self = Some a →
  for_points self body rest st
  = for_list body (rest ≫= point_records a) st.
Proof.
  intros Hk. revert st. induction rest as [|p rest IH]; intros st Ha; [done |].
  rewrite bind_cons for_list_app. cbn [for_points].
  run_with a. rewrite for_labels_for_list /point_records.
  pose proof (for_list_keeps_objects body
                (record_at p <$> measurement_pauli_strings (n_modes a)) st Hk)
    as Ho.
  destruct (for_list body _ st) as [[bs|e] st1]; [| done].
  rewrite !bind_run IH //. simpl in Ho. by rewrite Ho.
Qed.

Lemma for_params_for_list {B : Type} self a
    (body : CircuitParameters → M B) (g : ParamGen) st :
  keeps_objects body →
  objects st !! self = Some a →
  for_params self body g st = for_list body (remaining a g) st.
Proof.
  intros Hk Ha. destruct g as [|rest p labels|]; simpl.
  - run_with a. by apply for_points_for_list.
  - rewrite for_list_app !bind_run for_labels_for_list.
    pose proof (for_list_keeps_objects body (record_at p <$> labels) st Hk)
      as Ho.
    destruct (for_list body _ st) as [[bs|e] st1]; [| done].
    rewrite !bind_run (for_points_for_list self a) //.
    simpl in Ho. by rewrite Ho.
  - done.
Qed.

Lemma _generate_circuit_keeps_objects self :
  keeps_objects (_generate_circuit self).
Proof.
  intros cp st. unfold _generate_circuit, _base_circuit, _base_circuit_body.
  rewrite !bind_run /get_cache.
  destruct (cache_get _ _).
  - rewrite bind_run /=.
    destruct (decide _); [| done].
    rewrite bind_run /call.
    destruct (measure_pauli_string _ _); [| done].
    by rewrite bind_run /new_circuit bind_run /set_metadata.
  - rewrite !bind_run /getattr.
    destruct (objects st !! self); [| done].
    rewrite !bind_run /call.
    destruct (kitaev_hamiltonian _ _ _ _); [| done].
    rewrite !bind_run.
    destruct (diagonalizing_bogoliubov_transform _); [| done].
    destruct (FermionicGaussianState _ _); [| done].
    rewrite !bind_run /=.
    destruct (decide _); [| done].
    rewrite bind_run /call.
    destruct (measure_pauli_string _ _); [| done].
    by rewrite bind_run /new_circuit bind_run /set_metadata.
Qed.

(** ** The generators against the loops *)

Lemma param_outer_run self a (rest : list SweepPoint) st :
  objects st !! self = Some a →
  ∃ g',
    param_outer self rest st = (Ok (head (rest ≫= point_records a), g'), st)
    ∧ remaining a g' = tail (rest ≫= point_records a).
Proof.
  intros Ha. induction rest as [|p rest IH].
  - by exists PDone.
  - cbn [param_outer]. run_with a. rewrite bind_cons.
    unfold point_records at 1 3.
    destruct (measurement_pauli_strings (n_modes a)) as [|l labels] eqn:Hl.
    + done.
    + exists (PYield rest p labels). by rewrite /= /point_records Hl.
Qed.

Lemma circuit_parameters_next_run self a (g : ParamGen) st :
  objects st !! self = Some a →
  ∃ g',
    circuit_parameters_next self g st = (Ok (head (remaining a g)), g', st)
    ∧ remaining a g' = tail (remaining a g).
Proof.
  intros Ha. unfold circuit_parameters_next, gen_next.
  destruct g as [|rest p [|l labels]|]; simpl.
  - run_with a.
    destruct (param_outer_run self a
      (product4 (tunneling_values a) (superconducting_values a)
         (chemical_potential_values a) (occupied_orbitals_list a)) st Ha)
      as (g' & -> & Hg').
    by exists g'.
  - destruct (param_outer_run self a rest st Ha) as (g' & -> & Hg').
    by exists g'.
  - by eexists.
  - by exists PDone.
Qed.

(** ** The cross product *)

Lemma bind_uniform_length {A B : Type} (f : A → list B) (l : list A) n :
  (∀ x, length (f x) = n) → length (l ≫= f) = length l * n.
Proof.
  intros Hf. induction l as [|x l IH]; [done |].
  rewrite bind_cons length_app Hf IH /=. lia.
Qed.

Lemma bind_uniform_lookup {A B : Type} (f : A → list B) (l : list A)
    n j i x y :
  (∀ x, length (f x) = n) →
  l !! j = Some x → f x !! i = Some y →
  (l ≫= f) !! (j * n + i) = Some y.
Proof.
  intros Hf. revert j. induction l as [|x' l IH]; intros j Hj Hi; [done |].
  rewrite bind_cons. destruct j as [|j]; simpl in Hj.
  - injection Hj as ->. by apply lookup_app_l_Some.
  - rewrite lookup_app_r Hf; [| simpl; lia].
    replace (S j * n + i - n) with (j * n + i) by (simpl; lia). by apply IH.
Qed.

Lemma pair_with_fmap {A B : Type} (x : A) (pool : list B) :
  (pool ≫= λ y, [(x, y)]) = pair x <$> pool.
Proof. induction pool as [|y pool IH]; [done |]. by rewrite bind_cons IH. Qed.

Lemma product_step_length {A B : Type} (result : list A) (pool : list B) :
  length (product_step result pool) = length result * length pool.
Proof.
  apply bind_uniform_length. intros x. by rewrite pair_with_fmap length_fmap.
Qed.

Lemma product_step_lookup {A B : Type} (result : list A) (pool : list B)
    j i x y :
  result !! j = Some x → pool !! i = Some y →
  product_step result pool !! (j * length pool + i) = Some (x, y).
Proof.
  intros Hj Hi. apply bind_uniform_lookup with (x := x); [| done |].
  - intros x'. by rewrite pair_with_fmap length_fmap.
  - by rewrite pair_with_fmap list_lookup_fmap Hi.
Qed.

Lemma elem_of_product_step {A B : Type} (result : list A) (pool : list B)
    x y :
  (x, y) ∈ product_step result pool ↔ x ∈ result ∧ y ∈ pool.
Proof.
  unfold product_step. rewrite list_elem_of_bind. split.
  - intros (x' & Hin & Hx'). rewrite pair_with_fmap in Hin.
    apply list_elem_of_fmap in Hin as (y' & [= -> ->] & Hy'). done.
  - intros [Hx Hy]. exists x. split; [| done].
    rewrite pair_with_fmap. by apply list_elem_of_fmap_2.
Qed.

Lemma product_step_NoDup {A B : Type} (result : list A) (pool : list B) :
  NoDup result → NoDup pool → NoDup (product_step result pool).
Proof.
  intros Hr Hp. apply NoDup_bind; [| | done].
  - intros x1 x2 [x y] _ _. rewrite !pair_with_fmap.
    intros (? & [= -> _] & _)%list_elem_of_fmap.
    intros (? & [= -> _] & _)%list_elem_of_fmap. done.
  - intros x _. rewrite pair_with_fmap. apply NoDup_fmap_2; [| done].
    by intros y1 y2 [= ->].
Qed.

Lemma product4_length (ts ss mus : list Coupling) (occs : list (list Z)) :
  length (product4 ts ss mus occs)
  = length ts * length ss * length mus * length occs.
Proof. rewrite /product4 !product_step_length /=. lia. Qed.

Lemma product4_lookup (ts ss mus : list Coupling) (occs : list (list Z))
    it is_ im io t s mu occ :
  ts !! it = Some t → ss !! is_ = Some s → mus !! im = Some mu →
  occs !! io = Some occ →
  product4 ts ss mus occs
    !! (((it * length ss + is_) * length mus + im) * length occs + io)
  = Some ((), t, s, mu, occ).
Proof.
  intros Ht Hs Hm Ho. unfold product4.
  repeat (apply product_step_lookup; [| done]).
  by apply (product_step_lookup [()] ts 0 it).
Qed.

Lemma elem_of_product4 (ts ss mus : list Coupling) (occs : list (list Z))
    (p : SweepPoint) :
  p ∈ product4 ts ss mus occs
  ↔ p.1.1.1.2 ∈ ts ∧ p.1.1.2 ∈ ss ∧ p.1.2 ∈ mus ∧ p.2 ∈ occs.
Proof.
  destruct p as [[[[[] t] s] mu] occ]. unfold product4.
  rewrite !elem_of_product_step list_elem_of_singleton. simpl. tauto.
Qed.

Lemma product4_NoDup (ts ss mus : list Coupling) (occs : list (list Z)) :
  NoDup ts → NoDup ss → NoDup mus → NoDup occs →
  NoDup (product4 ts ss mus occs).
Proof.
  intros. unfold product4. repeat (apply product_step_NoDup; [| done]).
  apply NoDup_singleton.
Qed.

Lemma records_length a :
  length (records a)
  = length (tunneling_values a) * length (superconducting_values a)
    * length (chemical_potential_values a)
    * length (occupied_orbitals_list a)
    * length (measurement_pauli_strings (n_modes a)).
Proof.
  rewrite /records /=.
  rewrite (bind_uniform_length _ _
             (length (measurement_pauli_strings (n_modes a)))).
  - by rewrite product4_length.
  - intros p. by rewrite /point_records length_fmap.
Qed.

Lemma records_lookup a it is_ im io il t s mu occ l :
  tunneling_values a !! it = Some t →
  superconducting_values a !! is_ = Some s →
  chemical_potential_values a !! im = Some mu →
  occupied_orbitals_list a !! io = Some occ →
  measurement_pauli_strings (n_modes a) !! il = Some l →
  records a
    !! ((((it * length (superconducting_values a) + is_)
            * length (chemical_potential_values a) + im)
           * length (occupied_orbitals_list a) + io)
          * length (measurement_pauli_strings (n_modes a)) + il)
  = Some {| tunneling := t; superconducting := s; chemical_potential := mu;
            occupied_orbitals := occ; measurement_basis := "pauli";
            measurement_label := l |}.
Proof.
  intros Ht Hs Hm Ho Hl. rewrite /records /=.
  apply bind_uniform_lookup with (x := ((), t, s, mu, occ)).
  - intros p. by rewrite /point_records length_fmap.
  - by apply product4_lookup.
  - by rewrite /point_records list_lookup_fmap Hl.
Qed.

Lemma elem_of_records a cp :
  cp ∈ records a
  ↔ tunneling cp ∈ tunneling_values a
    ∧ superconducting cp ∈ superconducting_values a
    ∧ chemical_potential cp ∈ chemical_potential_values a
    ∧ occupied_orbitals cp ∈ occupied_orbitals_list a
    ∧ measurement_basis cp = "pauli"
    ∧ measurement_label cp ∈ measurement_pauli_strings (n_modes a).
Proof.
  rewrite /records /= list_elem_of_bind. split.
  - intros (p & Hcp & Hp). apply elem_of_product4 in Hp.
    apply list_elem_of_fmap in Hcp as (l & -> & Hl).
    destruct p as [[[[[] t] s] mu] occ]. simpl in *. tauto.
  - intros (Ht & Hs & Hm & Ho & Hb & Hl).
    exists ((), tunneling cp, superconducting cp, chemical_potential cp,
            occupied_orbitals cp).
    split; [| by apply elem_of_product4].
    apply list_elem_of_fmap. exists (measurement_label cp). split; [| done].
    destruct cp. simpl in *. by subst.
Qed.

Lemma records_NoDup a :
  NoDup (tunneling_values a) → NoDup (superconducting_values a) →
  NoDup (chemical_potential_values a) → NoDup (occupied_orbitals_list a) →
  NoDup (measurement_pauli_strings (n_modes a)) →
  NoDup (records a).
Proof.
  intros Ht Hs Hm Ho Hl. rewrite /records /=. apply NoDup_bind.
  - intros [[[[[] t1] s1] mu1] occ1] [[[[[] t2] s2] mu2] occ2] cp _ _.
    intros (l1 & -> & _)%list_elem_of_fmap.
    intros (l2 & [= -> -> -> -> _] & _)%list_elem_of_fmap. done.
  - intros p _. apply NoDup_fmap_2_strong; [| done].
    intros l1 l2 _ _. destruct p as [[[[[] t] s] mu] occ]. by intros [= ->].
  - by apply product4_NoDup.
Qed.

(** ** What a run of generation leaves on the heap *)

Lemma circuits_for_list self a st :
  objects st !! self = Some a →
  circuits self st = for_list (_generate_circuit self) (records a) st.
Proof.
  intros Ha. unfold circuits, list_circuits, _circuits.
  apply for_params_for_list; [apply _generate_circuit_keeps_objects | done].
Qed.

Lemma list_circuit_parameters_run self a (g : ParamGen) st :
  objects st !! self = Some a →
  list_circuit_parameters self g st = (Ok (remaining a g), st).
Proof.
  intros Ha. unfold list_circuit_parameters.
  rewrite (for_params_for_list self a) //. apply for_list_mret.
Qed.

Lemma generated_heap self a (l : list CircuitParameters) st cs st' :
  objects st !! self = Some a →
  Forall (λ cp, measurement_basis cp = "pauli") l →
  for_list (_generate_circuit self) l st = (Ok cs, st') →
  ∃ ds,
    heap st' = heap st ++ ds
    ∧ cs = Some <$> seq (length (heap st)) (length l)
    ∧ qc_metadata <$> ds = (λ cp, {[ "params" := cp ]}) <$> l.
Proof.
  intros Ha Hl. revert st cs st' Ha.
  induction Hl as [|cp l Hcp Hl IH]; intros st cs st' Ha.
  - intros [= <- <-]. exists []. by rewrite app_nil_r.
  - cbn [for_list]. rewrite bind_run.
    pose proof (_generate_circuit_keeps_objects self cp st) as Hobj.
    destruct (_generate_circuit_run self a cp st Ha) as (rb & st1 & _ & Hgen).
    destruct rb as [base|x]; [| by rewrite Hgen].
    destruct (decide _) as [_|Hne]; [| done].
    destruct Hgen as (st2 & Hgen & _ & _ & _ & Hheap).
    rewrite Hgen in Hobj |- *.
    destruct (measure_pauli_string _ _) as [d|x]; [| done].
    rewrite bind_run.
    destruct (for_list _ l st2) as [[cs'|x] st3] eqn:Hrest; [| done].
    intros [= <- <-].
    destruct (IH st2 cs' st3) as (ds & Hds & -> & Hmd); [| done |].
    { simpl in Hobj. by rewrite Hobj. }
    eexists (_ :: ds). split_and!.
    + by rewrite Hds Hheap -assoc.
    + by rewrite Hheap length_app /= Nat.add_1_r.
    + by rewrite !fmap_cons Hmd.
Qed.

(** The objects a run of generation creates: one per record, in order,
    each carrying its record and the data [measure_pauli_string] returned
    for the label of the record. *)
Lemma generated_objects self a (l : list CircuitParameters) st cs st' :
  objects st !! self = Some a →
  Forall (λ cp, measurement_basis cp = "pauli") l →
  for_list (_generate_circuit self) l st = (Ok cs, st') →
  ∃ ds,
    heap st' = heap st ++ ds
    ∧ cs = Some <$> seq (length (heap st)) (length l)
    ∧ Forall2
        (λ cp qc,
           qc_metadata qc = {[ "params" := cp ]}
           ∧ ∃ base,
               measure_pauli_string base (measurement_label cp)
               = Ok (qc_data qc))
        l ds.
Proof.
  intros Ha Hl. revert st cs st' Ha.
  induction Hl as [|cp l Hcp Hl IH]; intros st cs st' Ha.
  - intros [= <- <-]. exists []. by rewrite app_nil_r.
  - cbn [for_list]. rewrite bind_run.
    pose proof (_generate_circuit_keeps_objects self cp st) as Hobj.
    destruct (_generate_circuit_run self a cp st Ha) as (rb & st1 & _ & Hgen).
    destruct rb as [base|x]; [| by rewrite Hgen].
    destruct (decide _) as [_|Hne]; [| done].
    destruct Hgen as (st2 & Hgen & _ & _ & _ & Hheap).
    rewrite Hgen in Hobj |- *.
    destruct (measure_pauli_string base (measurement_label cp)) as [d|x] eqn:Hd;
      [| done].
    rewrite bind_run.
    destruct (for_list _ l st2) as [[cs'|x] st3] eqn:Hrest; [| done].
    intros [= <- <-].
    destruct (IH st2 cs' st3) as (ds & Hds & -> & Hall); [| done |].
    { simpl in Hobj. by rewrite Hobj. }
    eexists (_ :: ds). split_and!.
    + by rewrite Hds Hheap -assoc.
    + by rewrite Hheap length_app /= Nat.add_1_r.
    + apply Forall2_cons. split; [| done]. simpl. split; [done |]. by exists base.
Qed.

(** ** Taking items one at a time *)

Lemma take_circuits_for_list self a (k : nat) (g : ParamGen) st :
  objects st !! self = Some a →
  let r := take_circuits self k (CRun g) st in
  (r.1.1, r.2)
  = for_list (_generate_circuit self) (take k (remaining a g)) st.
Proof.
  revert g st. induction k as [|k IH]; intros g st Ha; [done |].
  cbn [take_circuits _circuits_next].
  destruct (circuit_parameters_next_run self a g st Ha) as (g' & -> & Hg').
  destruct (remaining a g) as [|cp rs]; [done |]. simpl in Hg'.
  cbn [head take for_list]. rewrite bind_run.
  pose proof (_generate_circuit_keeps_objects self cp st) as Hobj.
  destruct (_generate_circuit self cp st) as [[c|x] st1]; [| done].
  simpl in Hobj. rewrite bind_run -Hg' -IH; [| by rewrite Hobj].
  by destruct (take_circuits self k (CRun g') st1) as [[[cs|x] g''] st2].
Qed.

(** [circuits] is [list] over the generator: taking items with [next]
    until none is left gives what [circuits] gives. *)
Lemma circuits_by_next self a (n : nat) st :
  objects st !! self = Some a →
  length (records a) ≤ n →
  let r := take_circuits self n _circuits st in
  (r.1.1, r.2) = circuits self st.
Proof.
  intros Ha Hn.
  rewrite (circuits_for_list self a) // -(take_ge (records a) n) //.
  by apply (take_circuits_for_list self a n circuit_parameters).
Qed.

(** ** Counting calls *)

Lemma count_event_app ev (l1 l2 : list Event) :
  count_event ev (l1 ++ l2) = count_event ev l1 + count_event ev l2.
Proof. by rewrite /count_event filter_app length_app. Qed.

Lemma count_event_cons ev e (l : list Event) :
  count_event ev (e :: l)
  = (if decide (e = ev) then 1 else 0) + count_event ev l.
Proof. rewrite /count_event filter_cons. by destruct (decide (e = ev)). Qed.

Lemma count_event_absent ev (l : list Event) :
  Forall (λ e, e ≠ ev) l → count_event ev l = 0.
Proof.
  induction 1 as [|e l Hne _ IH]; [done |].
  rewrite count_event_cons IH. by destruct (decide (e = ev)).
Qed.

(** The state preparation occurs once in a body that runs to its end,
    and a body run for another key does not count. *)
Lemma count_state_preparation_done self n t s mu occ bc :
  base_circuit_value n t s mu occ = Ok bc →
  count_event (self, CallFermionicGaussianState n t s mu occ)
    (base_circuit_calls self n t s mu occ) = 1.
Proof.
  unfold base_circuit_calls, base_circuit_value.
  destruct (kitaev_hamiltonian _ _ _ _) as [h|x]; [| done].
  destruct (diagonalizing_bogoliubov_transform h) as [tm|x]; [| done].
  intros _. rewrite !count_event_cons /count_event /=.
  destruct (decide _) as [_|Hne]; [| done].
  by repeat (destruct (decide _) as [[=]|_]).
Qed.

Lemma count_state_preparation_other self self' n n' t s mu occ t' s' mu' occ' :
  (self', t', s', mu', occ') ≠ (self, t, s, mu, occ) →
  count_event (self, CallFermionicGaussianState n t s mu occ)
    (base_circuit_calls self' n' t' s' mu' occ') = 0.
Proof.
  intros Hne. apply count_event_absent. unfold base_circuit_calls.
  destruct (kitaev_hamiltonian _ _ _ _) as [h|x];
    [destruct (diagonalizing_bogoliubov_transform h) as [tm|x] |];
    repeat apply Forall_cons_2; try apply Forall_nil_2; try done.
  intros [= -> -> -> -> -> ->]. done.
Qed.

(** The Hamiltonian is built once in every run of the body; it is
    diagonalized once if it was built. *)
Lemma count_hamiltonian self n t s mu occ :
  count_event (self, CallKitaevHamiltonian n t s mu)
    (base_circuit_calls self n t s mu occ) = 1.
Proof.
  unfold base_circuit_calls.
  destruct (kitaev_hamiltonian _ _ _ _) as [h|x];
    [destruct (diagonalizing_bogoliubov_transform h) as [tm|x] |];
    rewrite !count_event_cons /count_event /=;
    by repeat (destruct (decide _) as [[=]|?]).
Qed.

Lemma count_diagonalize self n t s mu occ :
  count_event (self, CallDiagonalize n t s mu)
    (base_circuit_calls self n t s mu occ)
  = match kitaev_hamiltonian n t s mu with Ok _ => 1 | Raise _ => 0 end.
Proof.
  unfold base_circuit_calls.
  destruct (kitaev_hamiltonian _ _ _ _) as [h|x];
    [destruct (diagonalizing_bogoliubov_transform h) as [tm|x] |];
    rewrite !count_event_cons /count_event /=;
    by repeat (destruct (decide _) as [[=]|?]).
Qed.

(** ** The memo table over a lifetime *)

Lemma cache_after_NoDup k r (c : list (CacheKey * BaseCircuit)) :
  NoDup c.*1 → NoDup (cache_after k r c).*1.
Proof.
  intros Hnd. unfold cache_after.
  destruct (cache_get k c) as [v|] eqn:Hget; [by apply cache_touch_NoDup |].
  destruct r as [v|x]; [| done].
  apply cache_get_None in Hget. unfold cache_put.
  destruct (decide _) as [_|_]; rewrite fmap_cons; apply NoDup_cons.
  - done.
  - destruct c as [|kv c _] using rev_ind; [split; [done | constructor] |].
    rewrite removelast_last. rewrite fmap_app in Hget, Hnd.
    apply NoDup_app in Hnd as (Hnd & _ & _).
    rewrite elem_of_app in Hget. split; [| done]. intros ?. apply Hget. by left.
Qed.

Lemma cache_after_subset k r (c : list (CacheKey * BaseCircuit))
    (U : list CacheKey) k' :
  (∀ k1, k1 ∈ c.*1 → k1 ∈ U) → k ∈ U →
  k' ∈ (cache_after k r c).*1 → k' ∈ U.
Proof.
  intros Hc Hk. unfold cache_after.
  destruct (cache_get k c) as [v|] eqn:Hget.
  - intros Hin. apply Hc. apply cache_touch_keys in Hin; [done |].
    apply cache_get_Some in Hget. by apply (list_elem_of_fmap_2 fst) in Hget.
  - destruct r as [v|x]; [| by apply Hc]. unfold cache_put.
    destruct (decide _) as [_|_]; rewrite fmap_cons elem_of_cons.
    + intros [->|Hin]; [done | by apply Hc].
    + intros [->|Hin]; [done |]. apply Hc.
      destruct c as [|kv c _] using rev_ind; [done |].
      rewrite removelast_last in Hin. rewrite fmap_app elem_of_app. by left.
Qed.

Lemma cache_room k (c : list (CacheKey * BaseCircuit)) (U : list CacheKey) :
  NoDup c.*1 → (∀ k1, k1 ∈ c.*1 → k1 ∈ U) → k ∈ U → k ∉ c.*1 →
  length (remove_dups U) ≤ lru_maxsize →
  length c < lru_maxsize.
Proof.
  intros Hnd Hc Hk Hnew HU.
  assert (k :: c.*1 ⊆+ remove_dups U) as Hsub.
  { apply NoDup_submseteq; [by apply NoDup_cons |].
    intros k1. rewrite elem_of_cons elem_of_remove_dups.
    intros [->|?]; [done | by apply Hc]. }
  apply submseteq_length in Hsub. rewrite /= length_fmap in Hsub. lia.
Qed.

Lemma cache_after_retains k r (c : list (CacheKey * BaseCircuit))
    (U : list CacheKey) k0 :
  NoDup c.*1 → (∀ k1, k1 ∈ c.*1 → k1 ∈ U) → k ∈ U →
  length (remove_dups U) ≤ lru_maxsize →
  k0 ∈ c.*1 → k0 ∈ (cache_after k r c).*1.
Proof.
  intros Hnd Hc Hk HU Hk0. unfold cache_after.
  destruct (cache_get k c) as [v|] eqn:Hget.
  - apply cache_touch_keys; [| done].
    apply cache_get_Some in Hget. by apply (list_elem_of_fmap_2 fst) in Hget.
  - destruct r as [v|x]; [| done]. apply cache_get_None in Hget.
    rewrite cache_put_small; [| by eapply cache_room].
    rewrite fmap_cons. by right.
Qed.

Lemma cache_after_stores k v (c : list (CacheKey * BaseCircuit)) :
  k ∈ (cache_after k (Ok v) c).*1.
Proof.
  unfold cache_after. destruct (cache_get k c).
  - rewrite /cache_touch fmap_cons. by left.
  - unfold cache_put. destruct (decide _); rewrite fmap_cons; by left.
Qed.

(** What one generation request does to the instances, the memo table
    and the trace. *)
Lemma _generate_circuit_effect self a cp st :
  objects st !! self = Some a →
  let k := key_of self cp in
  let st' := (_generate_circuit self cp st).2 in
  ∃ (rb : Outcome Exn BaseCircuit) (mev body : list Event),
    objects st' = objects st
    ∧ base_cache st' = cache_after k rb (base_cache st)
    ∧ trace st' = mev ++ body ++ trace st
    ∧ Forall (λ e, ∃ l, e = (self, CallMeasurePauliString l)) mev
    ∧ match cache_get k (base_cache st) with
      | Some v => rb = Ok v ∧ body = []
      | None =>
          rb = base_circuit_value (n_modes a) (tunneling cp)
                 (superconducting cp) (chemical_potential cp)
                 (occupied_orbitals cp)
          ∧ body = base_circuit_calls self (n_modes a) (tunneling cp)
                     (superconducting cp) (chemical_potential cp)
                     (occupied_orbitals cp)
      end.
Proof.
  intros Ha k st'. subst k st'. unfold key_of.
  set (k := (self, tunneling cp, superconducting cp, chemical_potential cp,
             occupied_orbitals cp)).
  destruct (_base_circuit_run self a (tunneling cp) (superconducting cp)
              (chemical_potential cp) (occupied_orbitals cp) st Ha)
    as (rb & st1 & Hrun & Ho & Hh & Hc & Ht).
  destruct (_generate_circuit_run self a cp st Ha) as (rb' & st1' & Hrun' & Hgen).
  rewrite Hrun in Hrun'. injection Hrun' as <- <-.
  fold k in Hc, Ht.
  assert (∃ body, trace st1 = body ++ trace st
            ∧ match cache_get k (base_cache st) with
              | Some v => rb = Ok v ∧ body = []
              | None =>
                  rb = base_circuit_value (n_modes a) (tunneling cp)
                         (superconducting cp) (chemical_potential cp)
                         (occupied_orbitals cp)
                  ∧ body = base_circuit_calls self (n_modes a) (tunneling cp)
                             (superconducting cp) (chemical_potential cp)
                             (occupied_orbitals cp)
              end) as (body & Hbody & Hcase).
  { destruct (cache_get k (base_cache st)) as [v|].
    - exists []. by destruct Ht as [-> ->].
    - eexists. destruct Ht as [-> ->]. done. }
  exists rb.
  destruct rb as [base|x].
  - destruct (decide (measurement_basis cp = "pauli")).
    + destruct Hgen as (st2 & Hgen & Ho2 & Hc2 & Ht2 & _).
      exists [(self, CallMeasurePauliString (measurement_label cp))], body.
      rewrite Hgen /=. rewrite Ho2 Hc2 Ht2 Hc Hbody.
      split_and!; try done. apply Forall_singleton. by eexists.
    + exists [], body. rewrite Hgen /=. by rewrite Ho Hc Hbody.
  - exists [], body. rewrite Hgen /=. by rewrite Ho Hc Hbody.
Qed.

Lemma run_requests_count (U : list CacheKey) self a t s mu occ bc
    (reqs : list (nat * CircuitParameters)) st :
  objects st !! self = Some a →
  base_circuit_value (n_modes a) t s mu occ = Ok bc →
  length (remove_dups U) ≤ lru_maxsize →
  NoDup (base_cache st).*1 →
  (∀ k1, k1 ∈ (base_cache st).*1 → k1 ∈ U) →
  Forall (λ r, is_Some (objects st !! r.1) ∧ request_key r ∈ U) reqs →
  let ev := (self, CallFermionicGaussianState (n_modes a) t s mu occ) in
  count_event ev (trace (run_requests reqs st)) ≤ count_event ev (trace st) + 1
  ∧ ((self, t, s, mu, occ) ∈ (base_cache st).*1 →
     count_event ev (trace (run_requests reqs st))
     = count_event ev (trace st)).
Proof.
  intros Ha Hbc HU Hnd Hsub Hreqs ev. revert st Ha Hnd Hsub Hreqs.
  induction reqs as [|[self' cp] reqs IH]; intros st Ha Hnd Hsub Hreqs.
  { simpl. split; [lia | done]. }
  apply Forall_cons in Hreqs as [[[a' Ha'] Hk'] Hreqs]. simpl in Ha', Hk'.
  cbn [run_requests].
  destruct (_generate_circuit_effect self' a' cp st Ha')
    as (rb & mev & body & Ho & Hc & Ht & Hmev & Hcase).
  set (st1 := (_generate_circuit self' cp st).2) in *.
  unfold request_key in Hk'. simpl in Hk'.
  destruct (IH st1) as [IHle IHeq].
  { by rewrite Ho. }
  { rewrite Hc. by apply cache_after_NoDup. }
  { intros k1. rewrite Hc. by apply cache_after_subset. }
  { eapply Forall_impl; [done |]. intros r. by rewrite Ho. }
  assert (count_event ev mev = 0) as Hmev0.
  { apply count_event_absent. eapply Forall_impl; [done |].
    by intros e [l ->]. }
  assert (count_event ev (trace st1)
          = count_event ev body + count_event ev (trace st)) as Hcount.
  { by rewrite Ht !count_event_app Hmev0. }
  assert ((self, t, s, mu, occ) ∈ (base_cache st).*1 →
          (self, t, s, mu, occ) ∈ (base_cache st1).*1) as Hkeep.
  { rewrite Hc. by apply cache_after_retains with (U := U). }
  destruct (cache_get (key_of self' cp) (base_cache st)) as [v|] eqn:Hget.
  - destruct Hcase as [-> ->]. change (count_event ev []) with 0 in Hcount.
    split; [lia |]. intros Hin. rewrite IHeq; [lia | by apply Hkeep].
  - destruct Hcase as [-> ->].
    destruct (decide (key_of self' cp = (self, t, s, mu, occ))) as [Heq|Hne].
    + injection Heq as -> <- <- <- <-.
      rewrite Ha in Ha'. injection Ha' as <-.
      rewrite (count_state_preparation_done _ _ _ _ _ _ bc) // in Hcount.
      rewrite Hbc in Hc. rewrite IHeq; [| rewrite Hc; apply cache_after_stores].
      split; [lia |]. intros Hin. by apply cache_get_None in Hget.
    + rewrite count_state_preparation_other // in Hcount.
      split; [lia |]. intros Hin. rewrite IHeq; [lia | by apply Hkeep].
Qed.

Lemma cache_after_length k r (c : list (CacheKey * BaseCircuit)) :
  length c ≤ lru_maxsize → length (cache_after k r c) ≤ lru_maxsize.
Proof.
  intros Hlen. unfold cache_after.
  destruct (cache_get k c) as [v|] eqn:Hget.
  - etrans; [by apply cache_touch_length | done].
  - destruct r; [by apply cache_put_length | done].
Qed.

Lemma run_requests_bounded (reqs : list (nat * CircuitParameters)) st :
  Forall (λ r, is_Some (objects st !! r.1)) reqs →
  length (base_cache st) ≤ lru_maxsize →
  length (base_cache (run_requests reqs st)) ≤ lru_maxsize.
Proof.
  revert st. induction reqs as [|[self' cp] reqs IH]; intros st Hreqs Hlen;
    [done |].
  apply Forall_cons in Hreqs as [[a' Ha'] Hreqs]. cbn [run_requests].
  destruct (_generate_circuit_effect self' a' cp st Ha')
    as (rb & mev & body & Ho & Hc & _).
  apply IH.
  - eapply Forall_impl; [done |]. intros r. by rewrite Ho.
  - rewrite Hc. by apply cache_after_length.
Qed.

(** ** More on loops and failures *)

(** A loop that raises does so in the body, at some item, after the
    items before it went through. *)
Lemma for_list_Raise {A B : Type} (body : A → M B) (l : list A) st x st' :
  for_list body l st = (Raise x, st') →
  ∃ i y bs st1,
    l !! i = Some y
    ∧ for_list body (take i l) st = (Ok bs, st1)
    ∧ body y st1 = (Raise x, st').
Proof.
  revert st. induction l as [|y l IH]; intros st; [done |].
  cbn [for_list]. rewrite bind_run.
  destruct (body y st) as [[b|e] st1] eqn:Hy.
  - rewrite bind_run.
    destruct (for_list body l st1) as [[bs|e] st2] eqn:Hrest; [done |].
    intros [= -> ->].
    destruct (IH st1 Hrest) as (i & y' & bs & st3 & Hi & Htake & Hbody).
    exists (S i), y', (b :: bs), st3. split_and!; [done | | done].
    by rewrite /= bind_run Hy bind_run Htake.
  - intros [= -> ->]. by exists 0, y, [], st.
Qed.

Lemma for_list_prefix_Raise {A B : Type} (body : A → M B) (l : list A)
    (k : nat) st x st' :
  for_list body (take k l) st = (Raise x, st') →
  for_list body l st = (Raise x, st').
Proof.
  intros Hk. rewrite -(take_drop k l) for_list_app bind_run. by rewrite Hk.
Qed.

Lemma take_circuits_closed self (k : nat) (g : CircuitGen) st x g' st' :
  take_circuits self k g st = (Raise x, g', st') → g' = CDone.
Proof.
  revert g st. induction k as [|k IH]; intros g st; [done |].
  cbn [take_circuits].
  destruct (_circuits_next self g st) as [[[[c|]|e] g1] st1] eqn:Hnext.
  - destruct (take_circuits self k g1 st1) as [[[cs|e] g2] st2] eqn:Hrest;
      [done |].
    intros [= -> -> ->]. by eapply IH.
  - done.
  - intros [= -> -> ->]. unfold _circuits_next in Hnext.
    destruct g as [params|]; [| done].
    destruct (circuit_parameters_next self params st) as [[[[cp|]|e] p1] s1];
      [| done | by injection Hnext].
    destruct (_generate_circuit self cp s1) as [[c|e] s2];
      [done | by injection Hnext].
Qed.

Lemma _generate_circuit_pauli_circuit self cp st :
  measurement_basis cp = "pauli" →
  (_generate_circuit self cp st).1 ≠ Ok None.
Proof.
  intros Hb. unfold _generate_circuit, _base_circuit, _base_circuit_body.
  rewrite !bind_run /get_cache.
  destruct (cache_get _ _).
  - rewrite bind_run /=.
    destruct (decide _); [| done].
    rewrite bind_run /call.
    destruct (measure_pauli_string _ _); [| done].
    by rewrite bind_run /new_circuit bind_run /set_metadata.
  - rewrite !bind_run /getattr.
    destruct (objects st !! self); [| done].
    rewrite !bind_run /call.
    destruct (kitaev_hamiltonian _ _ _ _); [| done].
    rewrite !bind_run.
    destruct (diagonalizing_bogoliubov_transform _); [| done].
    destruct (FermionicGaussianState _ _); [| done].
    rewrite !bind_run /=.
    destruct (decide _); [| done].
    rewrite bind_run /call.
    destruct (measure_pauli_string _ _); [| done].
    by rewrite bind_run /new_circuit bind_run /set_metadata.
Qed.

Lemma base_circuit_value_Raise n cp x :
  base_circuit_value n (tunneling cp) (superconducting cp)
    (chemical_potential cp) (occupied_orbitals cp) = Raise x →
  raised_by_collaborator n cp x.
Proof.
  unfold base_circuit_value, raised_by_collaborator.
  destruct (kitaev_hamiltonian _ _ _ _) as [h|e]; [| intros [= ->]; by left].
  intros Hx. right. left. exists h. split; [done |].
  destruct (diagonalizing_bogoliubov_transform h) as [tm|e].
  - right. by exists tm.
  - left. congruence.
Qed.

Lemma _generate_circuit_Raise self a cp st x st' :
  objects st !! self = Some a →
  _generate_circuit self cp st = (Raise x, st') →
  raised_by_collaborator (n_modes a) cp x.
Proof.
  intros Ha Hgen.
  destruct (_base_circuit_run self a (tunneling cp) (superconducting cp)
              (chemical_potential cp) (occupied_orbitals cp) st Ha)
    as (rb & st1 & Hrun & _ & _ & _ & Ht).
  destruct (_generate_circuit_run self a cp st Ha) as (rb' & st1' & Hrun' & Hg).
  rewrite Hrun in Hrun'. injection Hrun' as <- <-.
  destruct rb as [base|e].
  - destruct (decide _) as [Hb|_]; [| congruence].
    destruct Hg as (st2 & Hg & _). rewrite Hg in Hgen.
    right. right. exists base. split; [done |].
    destruct (measure_pauli_string _ _); congruence.
  - rewrite Hg in Hgen. injection Hgen as -> _.
    destruct (cache_get _ _); [by destruct Ht |].
    destruct Ht as [Hv _]. by apply base_circuit_value_Raise.
Qed.

Lemma records_pauli a :
  Forall (λ cp, measurement_basis cp = "pauli") (records a).
Proof.
  apply Forall_forall. intros cp Hcp.
  by apply elem_of_records in Hcp as (_ & _ & _ & _ & Hb & _).
Qed.

(** What a successful call of [circuits] returns and leaves behind: the
    [i]-th item is a new circuit object whose metadata is the [i]-th
    record. *)
Lemma circuits_provenance self a st cs st' :
  objects st !! self = Some a →
  circuits self st = (Ok cs, st') →
  length cs = length (records a)
  ∧ NoDup cs
  ∧ ∀ i cp, records a !! i = Some cp →
      ∃ c qc,
        cs !! i = Some (Some c)
        ∧ heap st' !! c = Some qc
        ∧ qc_metadata qc = {[ "params" := cp ]}.
Proof.
  intros Ha Hrun. rewrite (circuits_for_list self a) // in Hrun.
  destruct (generated_heap self a (records a) st cs st' Ha (records_pauli a) Hrun)
    as (ds & Hheap & -> & Hmd).
  split_and!.
  - by rewrite length_fmap length_seq.
  - apply NoDup_fmap_2; [apply _ | apply NoDup_seq].
  - intros i cp Hi.
    assert (i < length (records a)) as Hlt by by eapply lookup_lt_Some.
    assert ((qc_metadata <$> ds) !! i = Some {[ "params" := cp ]}) as Hqc.
    { by rewrite Hmd list_lookup_fmap Hi. }
    rewrite list_lookup_fmap in Hqc.
    destruct (ds !! i) as [qc|] eqn:Hdsi; [| done]. injection Hqc as Hqc.
    exists (length (heap st) + i), qc. split_and!; [| | done].
    + by rewrite list_lookup_fmap lookup_seq_lt.
    + rewrite Hheap lookup_app_r; [| lia].
      by replace (length (heap st) + i - length (heap st)) with i by lia.
Qed.

(** ** The claims *)

(** C4. The records are enumerated in a fixed nesting order, outer to
    inner: tunneling, superconducting, chemical potential, occupied
    orbitals, with the measurement label varying fastest: the record made
    of the values at positions [it], [is_], [im], [io], [il] of the five
    sequences is at the mixed-radix position these determine.  The
    circuits are generated and yielded in exactly this order, one per
    record: the generator [_circuits], stepped [n] times, has run
    [_generate_circuit] on the first [n] records, [circuits] on all of
    them; and when [circuits] returns, its [i]-th item is the [i]-th
    circuit object created, carries the [i]-th record and holds what
    [measure_pauli_string] returned for the label of that record. *)
Theorem circuits_in_nesting_order self a st it is_ im io il t s mu occ l :
  objects st !! self = Some a →
  tunneling_values a !! it = Some t →
  superconducting_values a !! is_ = Some s →
  chemical_potential_values a !! im = Some mu →
  occupied_orbitals_list a !! io = Some occ →
  measurement_pauli_strings (n_modes a) !! il = Some l →
  ∃ rs,
    list_circuit_parameters self circuit_parameters st = (Ok rs, st)
    ∧ rs !! ((((it * length (superconducting_values a) + is_)
                 * length (chemical_potential_values a) + im)
                * length (occupied_orbitals_list a) + io)
               * length (measurement_pauli_strings (n_modes a)) + il)
      = Some {| tunneling := t; superconducting := s;
                chemical_potential := mu; occupied_orbitals := occ;
                measurement_basis := "pauli"; measurement_label := l |}
    ∧ circuits self st = for_list (_generate_circuit self) rs st
    ∧ (∀ n : nat,
         let r := take_circuits self n _circuits st in
         (r.1.1, r.2) = for_list (_generate_circuit self) (take n rs) st)
    ∧ ∀ cs st', circuits self st = (Ok cs, st') →
        length cs = length rs
        ∧ ∀ i cp, rs !! i = Some cp →
            ∃ qc,
              cs !! i = Some (Some (length (heap st) + i))
              ∧ heap st' !! (length (heap st) + i) = Some qc
              ∧ qc_metadata qc = {[ "params" := cp ]}
              ∧ ∃ base,
                  measure_pauli_string base (measurement_label cp)
                  = Ok (qc_data qc).
Proof.
  intros Ha Ht Hs Hm Ho Hl. exists (records a). split_and!.
  - by apply list_circuit_parameters_run.
  - by apply records_lookup.
  - by apply circuits_for_list.
  - intros n. by apply (take_circuits_for_list self a n circuit_parameters).
  - intros cs st' Hrun. rewrite (circuits_for_list self a) // in Hrun.
    destruct (generated_objects self a (records a) st cs st' Ha
                (records_pauli a) Hrun) as (ds & Hheap & -> & Hall).
    split; [by rewrite length_fmap length_seq |].
    intros i cp Hi.
    destruct (Forall2_lookup_l _ _ _ _ _ Hall Hi) as (qc & Hqc & Hmd & Hdata).
    exists qc. split_and!; [| | done | done].
    + rewrite list_lookup_fmap lookup_seq_lt //. by eapply lookup_lt_Some.
    + rewrite Hheap lookup_app_r; [| lia].
      by replace (length (heap st) + i - length (heap st)) with i by lia.
Qed.

(** C8. Every circuit returned by [circuits] carries exactly one record
    as metadata, under the key ["params"], and it is the record of the
    enumeration from which the circuit was generated: the [i]-th circuit
    carries the [i]-th record.  The circuits are distinct objects. *)
Theorem circuit_carries_its_record self a st cs st' :
  objects st !! self = Some a →
  circuits self st = (Ok cs, st') →
  ∃ rs,
    list_circuit_parameters self circuit_parameters st = (Ok rs, st)
    ∧ length cs = length rs
    ∧ NoDup cs
    ∧ ∀ i cp, rs !! i = Some cp →
        ∃ c qc,
          cs !! i = Some (Some c)
          ∧ heap st' !! c = Some qc
          ∧ qc_metadata qc = {[ "params" := cp ]}.
Proof.
  intros Ha Hrun. exists (records a). split.
  - by apply list_circuit_parameters_run.
  - by eapply circuits_provenance.
Qed.

(** C9. The enumeration is restartable and free of side effects: in any
    two states in which the instance has the same attributes, any two
    calls of [circuit_parameters] yield the same records; every step of
    the generator, and so the whole iteration, leaves the state, the
    attributes of the instance included, as it was; and a call of
    [circuits] in between does not change the attributes either. *)
Theorem circuit_parameters_restartable self a st1 st2 :
  objects st1 !! self = Some a →
  objects st2 !! self = Some a →
  (∃ rs,
     list_circuit_parameters self circuit_parameters st1 = (Ok rs, st1)
     ∧ list_circuit_parameters self circuit_parameters st2 = (Ok rs, st2))
  ∧ (∀ g, (circuit_parameters_next self g st1).2 = st1)
  ∧ objects (circuits self st1).2 = objects st1.
Proof.
  intros Ha1 Ha2. split_and!.
  - exists (records a). split; by apply list_circuit_parameters_run.
  - intros g.
    by destruct (circuit_parameters_next_run self a g st1 Ha1) as (g' & -> & _).
  - rewrite (circuits_for_list self a) //.
    apply for_list_keeps_objects, _generate_circuit_keeps_objects.
Qed.

(** C10. Every record yielded by [circuit_parameters] has the measurement
    basis ["pauli"]; for such a record [_generate_circuit] never falls
    through to return [None], in whatever state it is called; and every
    item of the list returned by [circuits] is a circuit object. *)
Theorem only_pauli_records_generated self a st :
  objects st !! self = Some a →
  ∃ rs,
    list_circuit_parameters self circuit_parameters st = (Ok rs, st)
    ∧ Forall (λ cp, measurement_basis cp = "pauli") rs
    ∧ (∀ cp st1, cp ∈ rs → (_generate_circuit self cp st1).1 ≠ Ok None)
    ∧ ∀ cs st', circuits self st = (Ok cs, st') →
        Forall (λ item, ∃ c qc, item = Some c ∧ heap st' !! c = Some qc) cs.
Proof.
  intros Ha. exists (records a). split_and!.
  - by apply list_circuit_parameters_run.
  - apply records_pauli.
  - intros cp st1 Hcp. apply _generate_circuit_pauli_circuit.
    by apply elem_of_records in Hcp as (_ & _ & _ & _ & Hb & _).
  - intros cs st' Hrun.
    destruct (circuits_provenance self a st cs st' Ha Hrun) as (Hlen & _ & Hi).
    apply Forall_forall. intros item Hitem.
    apply list_elem_of_lookup in Hitem as [i Hitem].
    destruct (lookup_lt_is_Some_2 (records a) i) as [cp Hcp].
    { rewrite -Hlen. by eapply lookup_lt_Some. }
    destruct (Hi i cp Hcp) as (c & qc & Hc & Hqc & _).
    exists c, qc. split; [congruence | done].
Qed.

(** C1, as amended.  When [circuits] returns, it returns as many circuits
    as the product of the lengths of the four configured sequences and of
    the label sequence; the records the circuits carry are, in order, the
    records of the enumeration, and a record is among them exactly if its
    fields are drawn from the configured sequences and the labels, with
    basis ["pauli"]; they are pairwise distinct provided none of the five
    sequences repeats a value. *)
Theorem circuits_cover_cross_product self a st cs st' :
  objects st !! self = Some a →
  circuits self st = (Ok cs, st') →
  length cs
  = length (tunneling_values a) * length (superconducting_values a)
    * length (chemical_potential_values a)
    * length (occupied_orbitals_list a)
    * length (measurement_pauli_strings (n_modes a))
  ∧ ∃ rs,
      carried_record st' <$> cs = Some <$> rs
      ∧ (∀ cp,
           cp ∈ rs
           ↔ tunneling cp ∈ tunneling_values a
             ∧ superconducting cp ∈ superconducting_values a
             ∧ chemical_potential cp ∈ chemical_potential_values a
             ∧ occupied_orbitals cp ∈ occupied_orbitals_list a
             ∧ measurement_basis cp = "pauli"
             ∧ measurement_label cp ∈ measurement_pauli_strings (n_modes a))
      ∧ (NoDup (tunneling_values a) →
         NoDup (superconducting_values a) →
         NoDup (chemical_potential_values a) →
         NoDup (occupied_orbitals_list a) →
         NoDup (measurement_pauli_strings (n_modes a)) →
         NoDup rs).
Proof.
  intros Ha Hrun.
  destruct (circuits_provenance self a st cs st' Ha Hrun) as (Hlen & _ & Hi).
  split; [by rewrite Hlen records_length |].
  exists (records a). split_and!.
  - apply list_eq. intros i. rewrite !list_lookup_fmap.
    destruct (records a !! i) as [cp|] eqn:Hcp.
    + destruct (Hi i cp Hcp) as (c & qc & -> & Hqc & Hmd).
      by rewrite /= /carried_record /= Hqc /= Hmd lookup_singleton_eq.
    + apply lookup_ge_None in Hcp. rewrite -Hlen in Hcp.
      apply lookup_ge_None in Hcp. by rewrite Hcp.
  - apply elem_of_records.
  - apply records_NoDup.
Qed.

(** C7, as amended.  The generator [_circuits] is lazy: a caller that
    takes [n] items from it has run [_generate_circuit] on the first [n]
    records and on nothing else, and is left in the state these runs
    produce.  [circuits] is not lazy: it runs the generation of every
    record, so that if the generation of some record raises, [circuits]
    raises that error and returns no circuit.  A generator whose body
    raised is finished: it yields nothing more. *)
Theorem generation_lazy_circuits_eager self a st :
  objects st !! self = Some a →
  ∃ rs,
    list_circuit_parameters self circuit_parameters st = (Ok rs, st)
    ∧ (∀ n : nat,
         let r := take_circuits self n _circuits st in
         (r.1.1, r.2) = for_list (_generate_circuit self) (take n rs) st)
    ∧ circuits self st = for_list (_generate_circuit self) rs st
    ∧ (∀ (n : nat) x,
         (for_list (_generate_circuit self) (take n rs) st).1 = Raise x →
         (circuits self st).1 = Raise x)
    ∧ (∀ (n : nat) x g st',
         take_circuits self n _circuits st = (Raise x, g, st') →
         ∀ st'', _circuits_next self g st'' = (Ok None, CDone, st'')).
Proof.
  intros Ha. exists (records a). split_and!.
  - by apply list_circuit_parameters_run.
  - intros n. by apply (take_circuits_for_list self a n circuit_parameters).
  - by apply circuits_for_list.
  - intros n x Hn. rewrite (circuits_for_list self a) //.
    destruct (for_list _ (take n _) st) as [r st1] eqn:Hrun.
    simpl in Hn. subst r.
    by rewrite (for_list_prefix_Raise _ _ _ _ _ _ Hrun).
  - intros n x g st' Hrun st''.
    by rewrite (take_circuits_closed _ _ _ _ _ _ _ Hrun).
Qed.

(** C5, as amended.  The Hamiltonian is built, and if built is
    diagonalized, once in every call of [_base_circuit] that misses the
    memo table and in no call that hits it.  The table is keyed by the
    instance, the three couplings and the occupied orbitals together;
    nothing is memoized on the couplings alone, so occupation patterns
    that share the couplings each have the Hamiltonian built and
    diagonalized again. *)
Theorem hamiltonian_built_on_every_miss self a t s mu occ st :
  objects st !! self = Some a →
  let st' := (_base_circuit self t s mu occ st).2 in
  let missed :=
    match cache_get (self, t, s, mu, occ) (base_cache st) with
    | Some _ => 0
    | None => 1
    end in
  count_event (self, CallKitaevHamiltonian (n_modes a) t s mu) (trace st')
  = count_event (self, CallKitaevHamiltonian (n_modes a) t s mu) (trace st)
    + missed
  ∧ count_event (self, CallDiagonalize (n_modes a) t s mu) (trace st')
    = count_event (self, CallDiagonalize (n_modes a) t s mu) (trace st)
      + match kitaev_hamiltonian (n_modes a) t s mu with
        | Ok _ => missed
        | Raise _ => 0
        end.
Proof.
  intros Ha st' missed. subst st' missed.
  destruct (_base_circuit_run self a t s mu occ st Ha)
    as (rb & st1 & -> & _ & _ & _ & Ht).
  simpl. destruct (cache_get _ _) as [v|].
  - destruct Ht as [_ ->]. split; [lia |].
    destruct (kitaev_hamiltonian _ _ _ _); lia.
  - destruct Ht as [_ ->].
    rewrite !count_event_app count_hamiltonian count_diagonalize.
    split; [lia |]. destruct (kitaev_hamiltonian _ _ _ _); lia.
Qed.

(** C2, as amended.  The memo table of [_base_circuit] belongs to the
    class, not to one instance, and is keyed by exact equality of the
    instance, the couplings and the occupied orbitals.  It holds at most
    128 entries, over any sequence of generation requests, by whatever
    instances.  It is kept in order of last use: a request that finds its
    key moves the entry to the front and leaves the others in order; a
    request that does not, and whose base circuit is computed, puts the
    new entry at the front and, if the table is full, drops the entry at
    the back, the least recently used; a request whose computation raises
    leaves the table as it is.  Over any sequence of requests in which
    the keys in the table and the keys requested are no more than 128 in
    all, a base circuit whose computation succeeds is computed at most
    once, however many labels ask for it, and not at all if it is in the
    table at the start. *)
Theorem base_circuit_computed_once_within_capacity
    (reqs : list (nat * CircuitParameters)) self a t s mu occ bc st :
  objects st !! self = Some a →
  base_circuit_value (n_modes a) t s mu occ = Ok bc →
  NoDup (base_cache st).*1 →
  length (base_cache st) ≤ lru_maxsize →
  Forall (λ r, is_Some (objects st !! r.1)) reqs →
  let ev := (self, CallFermionicGaussianState (n_modes a) t s mu occ) in
  (length (remove_dups ((base_cache st).*1 ++ (request_key <$> reqs)))
     ≤ lru_maxsize →
   count_event ev (trace (run_requests reqs st))
     ≤ count_event ev (trace st) + 1
   ∧ ((self, t, s, mu, occ) ∈ (base_cache st).*1 →
      count_event ev (trace (run_requests reqs st))
      = count_event ev (trace st)))
  ∧ (∀ k, cache_get k (base_cache st) = None ↔ k ∉ (base_cache st).*1)
  ∧ length (base_cache (run_requests reqs st)) ≤ lru_maxsize
  ∧ (∀ other b cp,
       objects st !! other = Some b →
       base_cache (_generate_circuit other cp st).2
       = match cache_get (key_of other cp) (base_cache st) with
         | Some v =>
             (key_of other cp, v)
               :: filter (λ kv, kv.1 ≠ key_of other cp) (base_cache st)
         | None =>
             match base_circuit_value (n_modes b) (tunneling cp)
                     (superconducting cp) (chemical_potential cp)
                     (occupied_orbitals cp) with
             | Ok v =>
                 (key_of other cp, v)
                   :: take (lru_maxsize - 1) (base_cache st)
             | Raise _ => base_cache st
             end
         end).
Proof.
  intros Ha Hbc Hnd Hlen Hreqs ev. split_and!.
  - intros HU.
    destruct (run_requests_count
                ((base_cache st).*1 ++ (request_key <$> reqs))
                self a t s mu occ bc reqs st) as [Hle Heq]; try done.
    { intros k1 Hk1. apply elem_of_app. by left. }
    apply Forall_forall. intros r Hr. split.
    + by eapply Forall_forall in Hreqs.
    + apply elem_of_app. right. by apply list_elem_of_fmap_2.
  - intros k. apply cache_get_None.
  - by apply run_requests_bounded.
  - intros other b cp Hb.
    destruct (_generate_circuit_effect other b cp st Hb)
      as (rb & mev & body & _ & Hc & _ & _ & Hcase).
    rewrite Hc /cache_after.
    destruct (cache_get (key_of other cp) (base_cache st)) as [v|].
    + done.
    + destruct Hcase as [-> _].
      destruct (base_circuit_value (n_modes b) _ _ _ _); [| done].
      by apply cache_put_take.
Qed.

(** * Further properties *)

(** ** One generation request, in full *)

Lemma _generate_circuit_full self a cp st :
  objects st !! self = Some a →
  ∃ st' mev new res,
    _generate_circuit self cp st = (res, st')
    ∧ objects st' = objects st
    ∧ base_cache st'
      = cache_after (key_of self cp) (cached_or_computed self a cp st)
          (base_cache st)
    ∧ trace st' = mev ++ miss_calls self a cp st ++ trace st
    ∧ heap st' = heap st ++ new
    ∧ match cached_or_computed self a cp st with
      | Raise x => res = Raise x ∧ mev = [] ∧ new = []
      | Ok base =>
          if decide (measurement_basis cp = "pauli") then
            mev = [(self, CallMeasurePauliString (measurement_label cp))]
            ∧ match measure_pauli_string base (measurement_label cp) with
              | Ok d =>
                  res = Ok (Some (length (heap st)))
                  ∧ new = [ {| qc_data := d;
                               qc_metadata := {[ "params" := cp ]} |} ]
              | Raise x => res = Raise x ∧ new = []
              end
          else res = Ok None ∧ mev = [] ∧ new = []
      end.
Proof.
  intros Ha. unfold cached_or_computed, miss_calls, key_of.
  set (k := (self, tunneling cp, superconducting cp, chemical_potential cp,
             occupied_orbitals cp)).
  destruct (_base_circuit_run self a (tunneling cp) (superconducting cp)
              (chemical_potential cp) (occupied_orbitals cp) st Ha)
    as (rb & st1 & Hrun & Ho & Hh & Hc & Ht).
  destruct (_generate_circuit_run self a cp st Ha) as (rb' & st1' & Hrun' & Hgen).
  rewrite Hrun in Hrun'. injection Hrun' as <- <-.
  fold k in Hc, Ht.
  assert (rb = match cache_get k (base_cache st) with
               | Some v => Ok v
               | None =>
                   base_circuit_value (n_modes a) (tunneling cp)
                     (superconducting cp) (chemical_potential cp)
                     (occupied_orbitals cp)
               end
          ∧ trace st1
            = match cache_get k (base_cache st) with
              | Some _ => []
              | None =>
                  base_circuit_calls self (n_modes a) (tunneling cp)
                    (superconducting cp) (chemical_potential cp)
                    (occupied_orbitals cp)
              end ++ trace st) as [Hrb Htr].
  { destruct (cache_get k (base_cache st)); by destruct Ht as [-> ->]. }
  rewrite -Hrb. destruct rb as [base|x].
  - destruct (decide (measurement_basis cp = "pauli")).
    + destruct Hgen as (st2 & Hgen & Ho2 & Hc2 & Ht2 & Hh2).
      destruct (measure_pauli_string base (measurement_label cp)) as [d|x].
      * exists st2, [(self, CallMeasurePauliString (measurement_label cp))],
          [ {| qc_data := d; qc_metadata := {[ "params" := cp ]} |} ],
          (Ok (Some (length (heap st)))).
        rewrite Hgen Ho2 Hc2 Ht2 Hh2 Hc Htr. split_and!; done.
      * exists st2, [(self, CallMeasurePauliString (measurement_label cp))],
          [], (Raise x).
        rewrite Hgen Ho2 Hc2 Ht2 Hh2 Hc Htr app_nil_r. split_and!; done.
    + exists st1, [], [], (Ok None).
      rewrite Hgen Ho Hc Htr Hh app_nil_r. split_and!; done.
  - exists st1, [], [], (Raise x).
    rewrite Hgen Ho Hc Htr Hh app_nil_r. split_and!; done.
Qed.

Lemma for_list_invariant {A B : Type} (P : State → Prop) (body : A → M B)
    (l : list A) st :
  (∀ x st, P st → P (body x st).2) → P st → P (for_list body l st).2.
Proof.
  intros Hbody. revert st. induction l as [|x l IH]; intros st HP; [done |].
  cbn [for_list]. rewrite bind_run.
  specialize (Hbody x st HP).
  destruct (body x st) as [[b|e] st1]; [| done].
  rewrite bind_run. specialize (IH st1 Hbody).
  by destruct (for_list body l st1) as [[bs|e] st2].
Qed.

Lemma elem_of_cache_after (kv : CacheKey * BaseCircuit) k r
    (c : list (CacheKey * BaseCircuit)) :
  kv ∈ cache_after k r c →
  kv ∈ c ∨ (cache_get k c = None ∧ r = Ok kv.2 ∧ kv.1 = k).
Proof.
  unfold cache_after. destruct (cache_get k c) as [v|] eqn:Hget.
  - rewrite /cache_touch /cache_remove elem_of_cons list_elem_of_filter.
    intros [->|[_ ?]]; left; [by apply cache_get_Some | done].
  - destruct r as [v|x]; [| by left]. unfold cache_put.
    destruct (decide _) as [_|_]; rewrite elem_of_cons.
    + intros [->|?]; [by right | by left].
    + intros [->|Hin]; [by right | left].
      destruct c as [|kv' c _] using rev_ind; [done |].
      rewrite removelast_last in Hin. rewrite elem_of_app. by left.
Qed.

Lemma cache_after_head k v (c : list (CacheKey * BaseCircuit)) :
  (∀ w, cache_get k c = Some w → w = v) →
  ∃ c', cache_after k (Ok v) c = (k, v) :: c'.
Proof.
  unfold cache_after. destruct (cache_get k c) as [w|].
  - intros Hw. rewrite (Hw w) //. by eexists.
  - intros _. unfold cache_put. destruct (decide _); by eexists.
Qed.

Lemma cache_get_head k v (c : list (CacheKey * BaseCircuit)) :
  cache_get k ((k, v) :: c) = Some v.
Proof. simpl. by destruct (decide (k = k)). Qed.

(** ** Counting builds and measurements *)

Lemma builds_app (l1 l2 : list Event) :
  builds (l1 ++ l2) = builds l1 + builds l2.
Proof. by rewrite /builds filter_app length_app. Qed.

Lemma measures_app (l1 l2 : list Event) :
  measures (l1 ++ l2) = measures l1 + measures l2.
Proof. by rewrite /measures filter_app length_app. Qed.

Lemma builds_base_circuit_calls self (n : nat) t s mu occ :
  builds (base_circuit_calls self n t s mu occ) = 1.
Proof.
  unfold base_circuit_calls.
  destruct (kitaev_hamiltonian _ _ _ _);
    [destruct (diagonalizing_bogoliubov_transform _) |]; done.
Qed.

Lemma measures_base_circuit_calls self (n : nat) t s mu occ :
  measures (base_circuit_calls self n t s mu occ) = 0.
Proof.
  unfold base_circuit_calls.
  destruct (kitaev_hamiltonian _ _ _ _);
    [destruct (diagonalizing_bogoliubov_transform _) |]; done.
Qed.

Lemma builds_miss_calls self a cp st :
  builds (miss_calls self a cp st) ≤ 1.
Proof.
  unfold miss_calls. destruct (cache_get _ _); [by compute; lia |].
  by rewrite builds_base_circuit_calls.
Qed.

Lemma measures_miss_calls self a cp st :
  measures (miss_calls self a cp st) = 0.
Proof.
  unfold miss_calls. destruct (cache_get _ _); [done |].
  by rewrite measures_base_circuit_calls.
Qed.

(** ** Construction *)

Lemma KitaevHamiltonianExperiment_run eid qubits (ts ss mus : list Coupling)
    (occs : list (list Z)) backend st :
  ∃ st1,
    KitaevHamiltonianExperiment eid qubits ts ss mus occs backend st
      = (match BaseExperiment_init qubits backend with
         | Ok _ => Ok (length (objects st))
         | Raise x => Raise x
         end, st1)
    ∧ objects st1
      = objects st ++
        [ {| experiment_id := eid; n_modes := length qubits;
             tunneling_values := ts; superconducting_values := ss;
             chemical_potential_values := mus;
             occupied_orbitals_list := occs |} ]
    ∧ base_cache st1 = base_cache st
    ∧ heap st1 = heap st
    ∧ trace st1 = trace st.
Proof.
  unfold KitaevHamiltonianExperiment.
  rewrite bind_run /new_instance bind_run /external.
  destruct (BaseExperiment_init qubits backend); by eexists.
Qed.

(** ** The memo table: shape and content *)

Lemma table_ok_after k r st st' :
  base_cache st' = cache_after k r (base_cache st) →
  table_ok st → table_ok st'.
Proof.
  intros Hc [Hnd Hlen]. unfold table_ok. rewrite Hc. split.
  - by apply cache_after_NoDup.
  - by apply cache_after_length.
Qed.

Lemma cache_consistent_after self a cp st st' :
  objects st !! self = Some a →
  objects st' = objects st →
  base_cache st'
  = cache_after (key_of self cp) (cached_or_computed self a cp st)
      (base_cache st) →
  cache_consistent st → cache_consistent st'.
Proof.
  intros Ha Ho Hc Hcons self' t s mu occ v. rewrite Hc Ho.
  intros [Hin|(Hget & Hr & Hk)]%elem_of_cache_after; [by apply Hcons |].
  simpl in Hr, Hk. unfold cached_or_computed in Hr. rewrite Hget in Hr.
  injection Hk as <- -> -> -> ->. by exists a.
Qed.

(** X1.  The memo table keeps its shape: no key twice, at most 128 entries.
    This holds in a fresh interpreter and is kept by the construction of
    an instance, by every generation request and by [circuits]. *)
Theorem memo_table_keeps_shape self a cp st eid qubits ts ss mus occs
    backend :
  objects st !! self = Some a →
  table_ok st →
  table_ok initial_state
  ∧ table_ok
      (KitaevHamiltonianExperiment eid qubits ts ss mus occs backend st).2
  ∧ table_ok (_generate_circuit self cp st).2
  ∧ table_ok (circuits self st).2.
Proof.
  intros Ha Hok. split_and!.
  - split; [constructor | simpl; lia].
  - destruct (KitaevHamiltonianExperiment_run eid qubits ts ss mus occs
                backend st) as (st1 & -> & _ & Hc & _).
    unfold table_ok. simpl. by rewrite Hc.
  - destruct (_generate_circuit_full self a cp st Ha)
      as (st' & mev & new & res & Hgen & _ & Hc & _).
    rewrite Hgen. by eapply table_ok_after.
  - rewrite (circuits_for_list self a) //.
    apply (for_list_invariant
             (λ st, objects st !! self = Some a ∧ table_ok st)); [| done].
    intros cp' st1 [Ha1 Hok1].
    destruct (_generate_circuit_full self a cp' st1 Ha1)
      as (st' & mev & new & res & Hgen & Ho & Hc & _).
    rewrite Hgen /=. split; [by rewrite Ho | by eapply table_ok_after].
Qed.

(** X2.  Memoization is transparent.  Every entry of the memo table is what
    the body of [_base_circuit] returns for its key: this holds in a fresh
    interpreter and is kept by the construction of an instance, by every
    generation request and by [circuits].  So a call of [_base_circuit]
    returns, or raises, exactly what the three collaborators produce for
    [self.n_modes] and the arguments, whether or not it finds the key in
    the table. *)
Theorem memoization_transparent self a cp st t s mu occ
    eid qubits ts ss mus occs backend :
  objects st !! self = Some a →
  cache_consistent st →
  cache_consistent initial_state
  ∧ cache_consistent
      (KitaevHamiltonianExperiment eid qubits ts ss mus occs backend st).2
  ∧ cache_consistent (_generate_circuit self cp st).2
  ∧ cache_consistent (circuits self st).2
  ∧ (_base_circuit self t s mu occ st).1
    = base_circuit_value (n_modes a) t s mu occ.
Proof.
  intros Ha Hcons. split_and!.
  - intros ?????? Hin. by apply elem_of_nil in Hin.
  - destruct (KitaevHamiltonianExperiment_run eid qubits ts ss mus occs
                backend st) as (st1 & -> & Ho & Hc & _).
    intros self' t' s' mu' occ' v Hin. simpl in *. rewrite Hc in Hin.
    destruct (Hcons _ _ _ _ _ _ Hin) as (a' & Ha' & Hv).
    exists a'. rewrite Ho. split; [by apply lookup_app_l_Some | done].
  - destruct (_generate_circuit_full self a cp st Ha)
      as (st' & mev & new & res & Hgen & Ho & Hc & _).
    rewrite Hgen. by eapply cache_consistent_after.
  - rewrite (circuits_for_list self a) //.
    apply (for_list_invariant
             (λ st, objects st !! self = Some a ∧ cache_consistent st));
      [| done].
    intros cp' st1 [Ha1 Hcons1].
    destruct (_generate_circuit_full self a cp' st1 Ha1)
      as (st' & mev & new & res & Hgen & Ho & Hc & _).
    rewrite Hgen /=.
    split; [by rewrite Ho | by eapply cache_consistent_after].
  - destruct (_base_circuit_run self a t s mu occ st Ha)
      as (rb & st1 & -> & _ & _ & _ & Ht). simpl.
    destruct (cache_get _ _) as [v|] eqn:Hget; [| by destruct Ht].
    destruct Ht as [-> _]. apply cache_get_Some in Hget.
    destruct (Hcons _ _ _ _ _ _ Hget) as (a' & Ha' & Hv).
    rewrite Ha in Ha'. by injection Ha' as <-.
Qed.

(** ** [_base_circuit]: hits, failures, instances *)

(** X3.  A call of [_base_circuit] that returned a circuit is remembered,
    whatever the size of the table: the same call made again right away
    returns the same circuit and calls no collaborator. *)
Theorem base_circuit_remembered self a t s mu occ st v st1 :
  objects st !! self = Some a →
  _base_circuit self t s mu occ st = (Ok v, st1) →
  ∃ st2,
    _base_circuit self t s mu occ st1 = (Ok v, st2)
    ∧ trace st2 = trace st1
    ∧ heap st2 = heap st1
    ∧ objects st2 = objects st1.
Proof.
  intros Ha Hrun.
  destruct (_base_circuit_run self a t s mu occ st Ha)
    as (rb & st1' & Hrun' & Ho & _ & Hc & Ht).
  rewrite Hrun in Hrun'. injection Hrun' as <- <-.
  destruct (cache_after_head (self, t, s, mu, occ) v (base_cache st))
    as [c' Hhead].
  { intros w Hw. rewrite Hw in Ht. destruct Ht as [Hv _]. congruence. }
  rewrite Hhead in Hc.
  destruct (_base_circuit_run self a t s mu occ st1)
    as (rb2 & st2 & Hrun2 & Ho2 & Hh2 & _ & Ht2); [by rewrite Ho |].
  simpl in Ht2. rewrite Hc cache_get_head in Ht2. destruct Ht2 as [-> Ht2].
  by exists st2.
Qed.

(** X4.  A call of [_base_circuit] that raised is not remembered: the table is
    left as it was, and the same call made again runs the body again,
    calls the collaborators again and raises the same error. *)
Theorem base_circuit_failure_not_remembered self a t s mu occ st x st1 :
  objects st !! self = Some a →
  _base_circuit self t s mu occ st = (Raise x, st1) →
  base_cache st1 = base_cache st
  ∧ ∃ st2,
      _base_circuit self t s mu occ st1 = (Raise x, st2)
      ∧ base_cache st2 = base_cache st
      ∧ builds (trace st1) = builds (trace st) + 1
      ∧ builds (trace st2) = builds (trace st) + 2.
Proof.
  intros Ha Hrun.
  destruct (_base_circuit_run self a t s mu occ st Ha)
    as (rb & st1' & Hrun' & Ho & _ & Hc & Ht).
  rewrite Hrun in Hrun'. injection Hrun' as <- <-.
  unfold cache_after in Hc.
  destruct (cache_get _ (base_cache st)) as [v|] eqn:Hget;
    [by destruct Ht |].
  destruct Ht as [Hv Ht]. split; [done |].
  destruct (_base_circuit_run self a t s mu occ st1)
    as (rb2 & st2 & Hrun2 & _ & _ & Hc2 & Ht2); [by rewrite Ho |].
  simpl in Ht2. unfold cache_after in Hc2. rewrite Hc Hget in Ht2, Hc2.
  destruct Ht2 as [-> Ht2]. rewrite -Hv in Hrun2, Hc2.
  exists st2. split_and!; [done | by rewrite Hc2 -Hc | |].
  - rewrite Ht builds_app builds_base_circuit_calls. lia.
  - rewrite Ht2 Ht !builds_app builds_base_circuit_calls. lia.
Qed.

(** X5.  The table is keyed by the instance: what one instance has computed
    is of no use to another, even for equal couplings and occupied
    orbitals.  If an instance asks for a base circuit that is not in the
    table under its own identity, the body runs and the collaborators are
    called, even right after a different instance asked for the same
    arguments. *)
Theorem base_circuit_not_shared_between_instances
    self other a b t s mu occ st :
  objects st !! self = Some a →
  objects st !! other = Some b →
  self ≠ other →
  (other, t, s, mu, occ) ∉ (base_cache st).*1 →
  let st1 := (_base_circuit self t s mu occ st).2 in
  let st2 := (_base_circuit other t s mu occ st1).2 in
  (_base_circuit other t s mu occ st1).1
    = base_circuit_value (n_modes b) t s mu occ
  ∧ trace st2 = base_circuit_calls other (n_modes b) t s mu occ ++ trace st1
  ∧ builds (trace st2) = builds (trace st1) + 1.
Proof.
  intros Ha Hb Hne Hnew st1 st2. subst st1 st2.
  destruct (_base_circuit_run self a t s mu occ st Ha)
    as (rb & st1 & -> & Ho & _ & Hc & _). simpl.
  assert ((other, t, s, mu, occ) ∉ (base_cache st1).*1) as Hnew1.
  { intros Hin. rewrite Hc in Hin.
    apply (cache_after_subset _ _ _
             ((self, t, s, mu, occ) :: (base_cache st).*1)) in Hin.
    - apply elem_of_cons in Hin as [[= ?]|?]; done.
    - intros k1 ?. by right.
    - by left. }
  apply cache_get_None in Hnew1.
  destruct (_base_circuit_run other b t s mu occ st1)
    as (rb2 & st2 & -> & _ & _ & _ & Ht2); [by rewrite Ho |].
  simpl in *. rewrite Hnew1 in Ht2. destruct Ht2 as [-> ->].
  split_and!; [done | done |].
  rewrite builds_app builds_base_circuit_calls. lia.
Qed.

(** ** One pass of [circuits] *)

Lemma for_list_cons_state {A B : Type} (body : A → M B) x (l : list A) st :
  (for_list body (x :: l) st).2
  = match body x st with
    | (Ok _, st1) => (for_list body l st1).2
    | (Raise _, st1) => st1
    end.
Proof.
  cbn [for_list]. rewrite bind_run. destruct (body x st) as [[b|e] st1]; [| done].
  rewrite bind_run. by destruct (for_list body l st1) as [[bs|e] st2].
Qed.

Lemma for_list_app_state {A B : Type} (body : A → M B) (l1 l2 : list A) st :
  (for_list body (l1 ++ l2) st).2
  = match for_list body l1 st with
    | (Ok _, st1) => (for_list body l2 st1).2
    | (Raise _, st1) => st1
    end.
Proof.
  rewrite for_list_app bind_run.
  destruct (for_list body l1 st) as [[bs|e] st1]; [| done].
  rewrite bind_run. by destruct (for_list body l2 st1) as [[bs'|e] st2].
Qed.

Lemma key_of_record_at self (p : SweepPoint) (l : string) :
  key_of self (record_at p l) = (self, p.1.1.1.2, p.1.1.2, p.1.2, p.2).
Proof. by destruct p as [[[[[] t] s] mu] occ]. Qed.

Lemma record_at_pauli (p : SweepPoint) (l : string) :
  measurement_basis (record_at p l) = "pauli".
Proof. by destruct p as [[[[[] t] s] mu] occ]. Qed.

(** Once the base circuit of a point heads the table, the labels of the
    point build nothing. *)
Lemma labels_at_head self a (p : SweepPoint) v (labels : list string) st :
  objects st !! self = Some a →
  (∃ c', base_cache st = ((self, p.1.1.1.2, p.1.1.2, p.1.2, p.2), v) :: c') →
  builds (trace (for_list (_generate_circuit self) (record_at p <$> labels)
                   st).2)
  = builds (trace st).
Proof.
  revert st. induction labels as [|l labels IH]; intros st Ha [c' Hc]; [done |].
  rewrite fmap_cons for_list_cons_state.
  destruct (_generate_circuit_full self a (record_at p l) st Ha)
    as (st1 & mev & new & res & Hgen & Ho & Hc1 & Ht & _ & Hcase).
  rewrite Hgen.
  assert (cached_or_computed self a (record_at p l) st = Ok v) as Hrb.
  { by rewrite /cached_or_computed key_of_record_at Hc cache_get_head. }
  assert (miss_calls self a (record_at p l) st = []) as Hmiss.
  { by rewrite /miss_calls key_of_record_at Hc cache_get_head. }
  rewrite Hrb in Hcase, Hc1. rewrite Hmiss in Ht.
  rewrite record_at_pauli in Hcase.
  destruct (decide _) as [_|?]; [| done]. destruct Hcase as [-> Hcase].
  assert (builds (trace st1) = builds (trace st)) as Hb.
  { by rewrite Ht. }
  destruct res as [c|x]; [| done].
  rewrite IH //; [by rewrite Ho |].
  rewrite Hc1 key_of_record_at /cache_after Hc cache_get_head. by eexists.
Qed.

Lemma labels_builds self a (p : SweepPoint) (labels : list string) st :
  objects st !! self = Some a →
  builds (trace (for_list (_generate_circuit self) (record_at p <$> labels)
                   st).2)
  ≤ builds (trace st) + 1.
Proof.
  intros Ha. destruct labels as [|l labels]; [simpl; lia |].
  rewrite fmap_cons for_list_cons_state.
  destruct (_generate_circuit_full self a (record_at p l) st Ha)
    as (st1 & mev & new & res & Hgen & Ho & Hc1 & Ht & _ & Hcase).
  rewrite Hgen.
  pose proof (builds_miss_calls self a (record_at p l) st) as Hmiss.
  destruct (cached_or_computed self a (record_at p l) st) as [base|x] eqn:Hrb.
  - rewrite record_at_pauli in Hcase.
    destruct (decide _) as [_|?]; [| done]. destruct Hcase as [-> Hcase].
    assert (builds (trace st1) ≤ builds (trace st) + 1) as Hb.
    { rewrite Ht !builds_app.
      change (builds [(self, CallMeasurePauliString
                               (measurement_label (record_at p l)))])
        with 0. lia. }
    destruct res as [c|x]; [| done].
    rewrite (labels_at_head self a p base) //; [by rewrite Ho |].
    rewrite Hc1 key_of_record_at. apply cache_after_head.
    intros w Hw. unfold cached_or_computed in Hrb.
    rewrite key_of_record_at Hw in Hrb. congruence.
  - destruct Hcase as (-> & -> & _). rewrite Ht app_nil_l builds_app. lia.
Qed.

Lemma points_builds self a (rest : list SweepPoint) st :
  objects st !! self = Some a →
  builds (trace (for_list (_generate_circuit self)
                   (rest ≫= point_records a) st).2)
  ≤ builds (trace st) + length rest.
Proof.
  revert st. induction rest as [|p rest IH]; intros st Ha; [simpl; lia |].
  rewrite bind_cons for_list_app_state /point_records.
  pose proof (labels_builds self a p
                (measurement_pauli_strings (n_modes a)) st Ha) as Hp.
  pose proof (for_list_keeps_objects (_generate_circuit self)
                (record_at p <$> measurement_pauli_strings (n_modes a)) st
                (_generate_circuit_keeps_objects self)) as Ho.
  destruct (for_list _ (record_at p <$> _) st) as [[bs|x] st1];
    simpl in *; [| lia].
  etrans; [apply IH; by rewrite Ho |]. lia.
Qed.

(** X6.  In one call of [circuits] the Hamiltonian is built at most once for
    each point of the product of the four configured sequences, however
    many measurement labels there are and however large the sweep is:
    the records of a point follow one another, so the base circuit of the
    point is found at the head of the table by all but the first. *)
Theorem one_build_per_sweep_point self a st :
  objects st !! self = Some a →
  builds (trace (circuits self st).2)
  ≤ builds (trace st)
    + length (tunneling_values a) * length (superconducting_values a)
      * length (chemical_potential_values a)
      * length (occupied_orbitals_list a).
Proof.
  intros Ha. rewrite (circuits_for_list self a) // -product4_length.
  by apply points_builds.
Qed.

Lemma generated_measures self a (l : list CircuitParameters) st cs st' :
  objects st !! self = Some a →
  Forall (λ cp, measurement_basis cp = "pauli") l →
  for_list (_generate_circuit self) l st = (Ok cs, st') →
  measures (trace st') = measures (trace st) + length l.
Proof.
  intros Ha Hl. revert st cs st' Ha.
  induction Hl as [|cp l Hcp Hl IH]; intros st cs st' Ha.
  - intros [= _ <-]. simpl. lia.
  - cbn [for_list]. rewrite bind_run.
    destruct (_generate_circuit_full self a cp st Ha)
      as (st1 & mev & new & res & Hgen & Ho & _ & Ht & _ & Hcase).
    rewrite Hgen. destruct res as [c|x]; [| done]. rewrite bind_run.
    destruct (for_list _ l st1) as [[cs'|x] st2] eqn:Hrest; [| done].
    intros [= _ <-].
    rewrite (IH st1 cs' st2) //; [| by rewrite Ho].
    destruct (cached_or_computed self a cp st) as [base|x];
      [| by destruct Hcase].
    destruct (decide _) as [_|?]; [| done]. destruct Hcase as [-> _].
    rewrite Ht !measures_app measures_miss_calls /=. 
    change (measures [(self, CallMeasurePauliString (measurement_label cp))])
      with 1. lia.
Qed.

(** X7.  When [circuits] returns, [measure_pauli_string] was called exactly
    once for every circuit returned. *)
Theorem one_measurement_per_circuit self a st cs st' :
  objects st !! self = Some a →
  circuits self st = (Ok cs, st') →
  measures (trace st') = measures (trace st) + length cs.
Proof.
  intros Ha Hrun.
  destruct (circuits_provenance self a st cs st' Ha Hrun) as (-> & _).
  rewrite (circuits_for_list self a) // in Hrun.
  by eapply generated_measures; [| apply records_pauli |].
Qed.

(** ** Circuit objects *)

Lemma generated_heap_grows self a (l : list CircuitParameters) st :
  objects st !! self = Some a →
  ∃ ds, heap (for_list (_generate_circuit self) l st).2 = heap st ++ ds.
Proof.
  intros Ha.
  apply (for_list_invariant
           (λ st', objects st' !! self = Some a
                   ∧ ∃ ds, heap st' = heap st ++ ds) (_generate_circuit self) l st).
  - intros cp st1 [Ha1 [ds Hds]].
    destruct (_generate_circuit_full self a cp st1 Ha1)
      as (st2 & mev & new & res & Hgen & Ho & _ & _ & Hh & _).
    rewrite Hgen /=. split; [by rewrite Ho |].
    exists (ds ++ new). by rewrite Hh Hds assoc.
  - split; [done |]. exists []. by rewrite app_nil_r.
Qed.

(** X8.  [circuits] creates its circuits anew at every call and never touches
    a circuit object that exists already: whatever its outcome, the
    objects there were are as they were; and of two calls one after the
    other, the second returns none of the circuits of the first and
    leaves the records they carry in place. *)
Theorem circuits_are_new_objects self a st :
  objects st !! self = Some a →
  (∀ c qc, heap st !! c = Some qc → heap (circuits self st).2 !! c = Some qc)
  ∧ ∀ cs1 st1 cs2 st2,
      circuits self st = (Ok cs1, st1) →
      circuits self st1 = (Ok cs2, st2) →
      (∀ item, item ∈ cs1 → item ∉ cs2)
      ∧ (∀ item, item ∈ cs1 →
           carried_record st2 item = carried_record st1 item).
Proof.
  intros Ha. split.
  - intros c qc Hc. rewrite (circuits_for_list self a) //.
    destruct (generated_heap_grows self a (records a) st Ha) as [ds ->].
    by apply lookup_app_l_Some.
  - intros cs1 st1 cs2 st2 Hrun1 Hrun2.
    assert (objects st1 !! self = Some a) as Ha1.
    { pose proof (for_list_keeps_objects (_generate_circuit self) (records a)
                    st (_generate_circuit_keeps_objects self)) as Ho.
      rewrite -(circuits_for_list self a) // Hrun1 /= in Ho. by rewrite Ho. }
    rewrite (circuits_for_list self a) // in Hrun1.
    rewrite (circuits_for_list self a) // in Hrun2.
    destruct (generated_heap self a _ _ _ _ Ha (records_pauli a) Hrun1)
      as (ds1 & Hh1 & -> & Hmd1).
    destruct (generated_heap self a _ _ _ _ Ha1 (records_pauli a) Hrun2)
      as (ds2 & Hh2 & -> & _).
    assert (length ds1 = length (records a)) as Hlen.
    { by rewrite -(length_fmap qc_metadata) Hmd1 length_fmap. }
    split.
    + intros item (c & -> & Hc%elem_of_seq)%list_elem_of_fmap.
      intros (c' & [= <-] & Hc'%elem_of_seq)%list_elem_of_fmap.
      rewrite Hh1 length_app in Hc'. lia.
    + intros item (c & -> & Hc%elem_of_seq)%list_elem_of_fmap.
      rewrite /carried_record /= Hh2 lookup_app_l //.
      rewrite Hh1 length_app. lia.
Qed.

(** ** The outcome of [circuits] *)

Lemma cached_or_computed_value self a cp st :
  objects st !! self = Some a →
  cache_consistent st →
  cached_or_computed self a cp st
  = base_circuit_value (n_modes a) (tunneling cp) (superconducting cp)
      (chemical_potential cp) (occupied_orbitals cp).
Proof.
  intros Ha Hcons. unfold cached_or_computed.
  destruct (cache_get _ _) as [v|] eqn:Hget; [| done].
  apply cache_get_Some in Hget.
  destruct (Hcons _ _ _ _ _ _ Hget) as (a' & Ha' & Hv).
  rewrite Ha in Ha'. by injection Ha' as <-.
Qed.

Lemma _generate_circuit_pure self a cp st :
  objects st !! self = Some a →
  cache_consistent st →
  measurement_basis cp = "pauli" →
  objects (_generate_circuit self cp st).2 = objects st
  ∧ cache_consistent (_generate_circuit self cp st).2
  ∧ match record_outcome (n_modes a) cp with
    | Ok d =>
        (_generate_circuit self cp st).1 = Ok (Some (length (heap st)))
        ∧ heap (_generate_circuit self cp st).2
          = heap st ++ [ {| qc_data := d;
                           qc_metadata := {[ "params" := cp ]} |} ]
    | Raise x =>
        (_generate_circuit self cp st).1 = Raise x
        ∧ heap (_generate_circuit self cp st).2 = heap st
    end.
Proof.
  intros Ha Hcons Hb.
  destruct (_generate_circuit_full self a cp st Ha)
    as (st1 & mev & new & res & Hgen & Ho & Hc & _ & Hh & Hcase).
  rewrite Hgen /=. split; [done |].
  split; [by eapply cache_consistent_after |].
  rewrite cached_or_computed_value // in Hcase. unfold record_outcome.
  destruct (base_circuit_value _ _ _ _ _) as [base|x].
  - destruct (decide _) as [_|?]; [| done]. destruct Hcase as [_ Hcase].
    destruct (measure_pauli_string _ _) as [d|x];
      destruct Hcase as [-> ->]; by rewrite Hh ?app_nil_r.
  - destruct Hcase as (-> & _ & ->). by rewrite Hh app_nil_r.
Qed.

Lemma generated_outcome self a (l : list CircuitParameters) st :
  objects st !! self = Some a →
  cache_consistent st →
  Forall (λ cp, measurement_basis cp = "pauli") l →
  match (for_list (_generate_circuit self) l st).1 with
  | Ok cs =>
      ∃ ds,
        heap (for_list (_generate_circuit self) l st).2 = heap st ++ ds
        ∧ Forall2 (λ cp qc, record_outcome (n_modes a) cp = Ok (qc_data qc))
            l ds
  | Raise x =>
      ∃ i cp,
        l !! i = Some cp
        ∧ record_outcome (n_modes a) cp = Raise x
        ∧ Forall (λ cp', ∃ d, record_outcome (n_modes a) cp' = Ok d)
            (take i l)
  end.
Proof.
  intros Ha Hcons Hl. revert st Ha Hcons.
  induction Hl as [|cp l Hcp Hl IH]; intros st Ha Hcons.
  - exists []. by rewrite /= app_nil_r.
  - cbn [for_list]. rewrite bind_run.
    destruct (_generate_circuit_pure self a cp st Ha Hcons Hcp)
      as (Ho & Hcons1 & Hcase).
    destruct (_generate_circuit self cp st) as [res st1]. simpl in *.
    destruct (record_outcome (n_modes a) cp) as [d|x] eqn:Hout.
    + destruct Hcase as [-> Hh]. rewrite bind_run.
      specialize (IH st1). rewrite Ho in IH. specialize (IH Ha Hcons1).
      destruct (for_list _ l st1) as [[cs|x] st2]; simpl in *.
      * destruct IH as (ds & Hds & Hall). eexists (_ :: ds). split.
        -- by rewrite Hds Hh -assoc.
        -- by apply Forall2_cons.
      * destruct IH as (i & cp' & Hi & Hx & Hbefore).
        exists (S i), cp'. split_and!; [done | done |].
        rewrite firstn_cons. apply Forall_cons. split; [by eexists | done].
    + destruct Hcase as [-> _]. exists 0, cp. split_and!; [done | done |].
      apply Forall_nil_2.
Qed.

(** X9.  The outcome of [circuits] is that of the collaborators on the
    records in order, the memo table left aside.  In a state whose memo
    table is as the body of [_base_circuit] fills it: if [circuits]
    returns, the [i]-th circuit is what [measure_pauli_string] makes of
    the base circuit and the label of the [i]-th record; if it raises,
    the error is that of the first record on which a collaborator fails;
    and it returns exactly if no collaborator fails on any record. *)
Theorem circuits_outcome self a st :
  objects st !! self = Some a →
  cache_consistent st →
  ∃ rs,
    list_circuit_parameters self circuit_parameters st = (Ok rs, st)
    ∧ match (circuits self st).1 with
      | Ok cs =>
          length cs = length rs
          ∧ ∀ i cp, rs !! i = Some cp →
              ∃ c qc,
                cs !! i = Some (Some c)
                ∧ heap (circuits self st).2 !! c = Some qc
                ∧ record_outcome (n_modes a) cp = Ok (qc_data qc)
      | Raise x =>
          ∃ i cp,
            rs !! i = Some cp
            ∧ record_outcome (n_modes a) cp = Raise x
            ∧ ∀ j cp', j < i → rs !! j = Some cp' →
                ∃ d, record_outcome (n_modes a) cp' = Ok d
      end
    ∧ ((∃ cs, (circuits self st).1 = Ok cs)
       ↔ ∀ cp, cp ∈ rs → ∃ d, record_outcome (n_modes a) cp = Ok d).
Proof.
  intros Ha Hcons. exists (records a).
  split; [by apply list_circuit_parameters_run |].
  pose proof (generated_outcome self a (records a) st Ha Hcons
                (records_pauli a)) as Hout.
  rewrite (circuits_for_list self a) //.
  destruct (for_list _ (records a) st) as [[cs|x] st'] eqn:Hrun; simpl in *.
  - destruct Hout as (ds & Hds & Hall).
    destruct (generated_heap self a _ _ _ _ Ha (records_pauli a) Hrun)
      as (ds' & Hds' & -> & _).
    rewrite Hds in Hds'. apply app_inv_head in Hds' as <-.
    split_and!.
    + by rewrite length_fmap length_seq.
    + intros i cp Hi.
      destruct (Forall2_lookup_l _ _ _ _ _ Hall Hi) as (qc & Hqc & Hd).
      exists (length (heap st) + i), qc. split_and!; [| | done].
      * rewrite list_lookup_fmap lookup_seq_lt //. by eapply lookup_lt_Some.
      * rewrite Hds lookup_app_r; [| lia].
        by replace (length (heap st) + i - length (heap st)) with i by lia.
    + split; [| by eexists]. intros _ cp Hcp.
      apply list_elem_of_lookup in Hcp as [i Hi].
      destruct (Forall2_lookup_l _ _ _ _ _ Hall Hi) as (qc & _ & Hd).
      by eexists.
  - destruct Hout as (i & cp & Hi & Hx & Hbefore). split.
    + exists i, cp. split_and!; [done | done |].
      intros j cp' Hj Hcp'.
      apply (Forall_lookup_1 _ _ j cp' Hbefore).
      by rewrite lookup_take_lt.
    + split; [by intros [cs [=]] |]. intros Hall.
      destruct (Hall cp) as [d Hd]; [by eapply list_elem_of_lookup_2 |].
      congruence.
Qed.

(** ** Resuming a generator *)

Lemma take_circuits_resume self a (n : nat) (g : ParamGen) st cs g' st' :
  objects st !! self = Some a →
  take_circuits self n (CRun g) st = (Ok cs, g', st') →
  for_list (_generate_circuit self) (take n (remaining a g)) st = (Ok cs, st')
  ∧ list_circuits self g' st'
    = for_list (_generate_circuit self) (drop n (remaining a g)) st'.
Proof.
  revert g st cs. induction n as [|n IH]; intros g st cs Ha.
  - intros [= <- <- <-]. split; [done |]. rewrite drop_0.
    apply for_params_for_list; [apply _generate_circuit_keeps_objects | done].
  - cbn [take_circuits _circuits_next].
    destruct (circuit_parameters_next_run self a g st Ha) as (g1 & -> & Hg1).
    destruct (remaining a g) as [|cp rs].
    + intros [= <- <- <-]. done.
    + simpl in Hg1. cbn [head take drop for_list]. rewrite bind_run.
      pose proof (_generate_circuit_keeps_objects self cp st) as Hobj.
      destruct (_generate_circuit self cp st) as [[c|x] st1]; [| done].
      simpl in Hobj.
      destruct (take_circuits self n (CRun g1) st1) as [[[cs1|x] g2] st2]
        eqn:Htake; [| done].
      intros [= <- <- <-].
      destruct (IH g1 st1 cs1) as [Hfirst Hrest]; [by rewrite Hobj | done |].
      rewrite Hg1 in Hfirst, Hrest. by rewrite bind_run Hfirst.
Qed.

(** X10.  A generator of [_circuits] that was consumed in part can be resumed:
    the items taken first, followed by what [list] then gets out of the
    same generator, are what [circuits] returns from the state in which
    the generator was started, in the same final state; no record is
    skipped or generated twice.  If the rest raises, so does
    [circuits]. *)
Theorem generator_resumes_where_it_stopped self a (n : nat) st cs g st1 :
  objects st !! self = Some a →
  take_circuits self n _circuits st = (Ok cs, g, st1) →
  circuits self st
  = match list_circuits self g st1 with
    | (Ok rest, st2) => (Ok (cs ++ rest), st2)
    | (Raise x, st2) => (Raise x, st2)
    end.
Proof.
  intros Ha Htake.
  destruct (take_circuits_resume self a n circuit_parameters st cs g st1
              Ha Htake) as [Hfirst ->].
  rewrite (circuits_for_list self a) // /records.
  rewrite -{1}(take_drop n (remaining a circuit_parameters)).
  rewrite for_list_app bind_run Hfirst bind_run.
  by destruct (for_list _ (drop n _) st1) as [[rest|x] st2].
Qed.

(** ** Construction, empty sweeps, other bases *)

(** X11.  Constructing an experiment builds no circuit: whether or not
    [super().__init__] raises, no circuit-building collaborator is
    called, no circuit object is created, the memo table is left alone and
    the instances there were keep their attributes.  If
    [super().__init__] raises, the construction raises the same error.
    Otherwise it returns a new instance whose mode count is the number of
    its qubits: the instance enumerates the product of its four sequences
    with the labels for [len(qubits)] modes. *)
Theorem new_experiment_enumerates eid qubits ts ss mus occs backend st :
  ∃ r st1,
    KitaevHamiltonianExperiment eid qubits ts ss mus occs backend st
      = (r, st1)
    ∧ trace st1 = trace st
    ∧ heap st1 = heap st
    ∧ base_cache st1 = base_cache st
    ∧ (∀ other b, objects st !! other = Some b → objects st1 !! other = Some b)
    ∧ match BaseExperiment_init qubits backend with
      | Raise x => r = Raise x
      | Ok _ =>
          ∃ self rs,
            r = Ok self
            ∧ objects st !! self = None
            ∧ list_circuit_parameters self circuit_parameters st1
              = (Ok rs, st1)
            ∧ length rs
              = length ts * length ss * length mus * length occs
                * length (measurement_pauli_strings (length qubits))
            ∧ ∀ cp, cp ∈ rs →
                measurement_label cp
                  ∈ measurement_pauli_strings (length qubits)
      end.
Proof.
  set (a := {| experiment_id := eid; n_modes := length qubits;
               tunneling_values := ts; superconducting_values := ss;
               chemical_potential_values := mus;
               occupied_orbitals_list := occs |}).
  destruct (KitaevHamiltonianExperiment_run eid qubits ts ss mus occs
              backend st) as (st1 & Hrun & Ho & Hc & Hh & Ht).
  eexists _, st1. split; [exact Hrun |]. split_and!; try done.
  - intros other b Hb. rewrite Ho. by apply lookup_app_l_Some.
  - destruct (BaseExperiment_init qubits backend) as [[]|x]; [| done].
    exists (length (objects st)), (records a). split_and!; [done | | | |].
    + by apply lookup_ge_None.
    + apply (list_circuit_parameters_run _ a).
      by rewrite Ho lookup_app_r // Nat.sub_diag.
    + apply (records_length a).
    + intros cp Hcp. by apply (elem_of_records a) in Hcp as (_&_&_&_&_&?).
Qed.

(** X12.  A sweep with an empty sequence, or a mode count without
    measurement labels, generates nothing: [circuit_parameters] yields no
    record and [circuits] returns the empty list; no base circuit is
    computed or memoized, [measure_pauli_string] is not called and no
    circuit object is created. *)
Theorem empty_sweep_generates_nothing self a st :
  objects st !! self = Some a →
  tunneling_values a = [] ∨ superconducting_values a = []
  ∨ chemical_potential_values a = [] ∨ occupied_orbitals_list a = []
  ∨ measurement_pauli_strings (n_modes a) = [] →
  circuits self st = (Ok [], st)
  ∧ list_circuit_parameters self circuit_parameters st = (Ok [], st).
Proof.
  intros Ha Hempty.
  assert (records a = []) as Hrs.
  { apply nil_length_inv. rewrite records_length.
    destruct Hempty as [->|[->|[->|[->| ->]]]]; simpl; lia. }
  split.
  - by rewrite (circuits_for_list self a) // Hrs.
  - rewrite (list_circuit_parameters_run self a) //. by rewrite -/(records a) Hrs.
Qed.

(** ** The claims on failures and on other bases *)

(** Where the errors of generation come from. *)
Lemma errors_come_from_collaborators self a st :
  objects st !! self = Some a →
  (∀ cp x st',
     _generate_circuit self cp st = (Raise x, st') →
     raised_by_collaborator (n_modes a) cp x)
  ∧ (∀ x st',
       circuits self st = (Raise x, st') →
       ∃ rs i cp cs st1,
         list_circuit_parameters self circuit_parameters st = (Ok rs, st)
         ∧ rs !! i = Some cp
         ∧ for_list (_generate_circuit self) (take i rs) st = (Ok cs, st1)
         ∧ _generate_circuit self cp st1 = (Raise x, st')
         ∧ raised_by_collaborator (n_modes a) cp x)
  ∧ (∀ cs st',
       circuits self st = (Ok cs, st') →
       ∃ rs,
         list_circuit_parameters self circuit_parameters st = (Ok rs, st)
         ∧ length cs = length rs)
  ∧ (∀ cp cp' x,
       base_circuit_value (n_modes a) (tunneling cp) (superconducting cp)
         (chemical_potential cp) (occupied_orbitals cp) = Raise x →
       key_of self cp' = key_of self cp →
       cache_get (key_of self cp) (base_cache st) = None →
       (_generate_circuit self cp st).1 = Raise x
       ∧ (_generate_circuit self cp' st).1 = Raise x).
Proof.
  intros Ha. split_and!.
  - intros cp x st'. by apply _generate_circuit_Raise.
  - intros x st' Hrun. rewrite (circuits_for_list self a) // in Hrun.
    destruct (for_list_Raise _ _ _ _ _ Hrun)
      as (i & cp & cs & st1 & Hi & Htake & Hgen).
    exists (records a), i, cp, cs, st1. split_and!; try done.
    + by apply list_circuit_parameters_run.
    + eapply _generate_circuit_Raise; [| done].
      pose proof (for_list_keeps_objects (_generate_circuit self)
                    (take i (records a)) st
                    (_generate_circuit_keeps_objects self)) as Ho.
      rewrite Htake /= in Ho. by rewrite Ho.
  - intros cs st' Hrun. exists (records a). split.
    + by apply list_circuit_parameters_run.
    + by eapply circuits_provenance.
  - assert (∀ cp x,
      base_circuit_value (n_modes a) (tunneling cp) (superconducting cp)
        (chemical_potential cp) (occupied_orbitals cp) = Raise x →
      cache_get (key_of self cp) (base_cache st) = None →
      (_generate_circuit self cp st).1 = Raise x) as Hone.
    { intros cp x Hv Hget.
      destruct (_base_circuit_run self a (tunneling cp) (superconducting cp)
                  (chemical_potential cp) (occupied_orbitals cp) st Ha)
        as (rb & st1 & Hrun & _ & _ & _ & Ht).
      unfold key_of in Hget. rewrite Hget in Ht. destruct Ht as [-> _].
      rewrite Hv in Hrun.
      by rewrite /_generate_circuit bind_run Hrun. }
    intros cp cp' x Hv Hkey Hget. split; [by apply Hone |].
    injection Hkey as Ht Hs Hm Ho.
    apply Hone; [by rewrite Ht Hs Hm Ho |].
    by rewrite /key_of Ht Hs Hm Ho.
Qed.

(** C6, as amended.  An error raised while a record is processed is the
    error of the collaborator that raised (Hamiltonian building,
    diagonalization, state preparation or measurement appending), passed
    on unchanged by [_generate_circuit] and by [circuits], which stops at
    the first record that fails and leaves the state as it was when the
    error was raised; no record is skipped, and there is no recovery:
    whenever the base circuit a request gets cannot be had, or
    [measure_pauli_string] raises on it, [_generate_circuit] raises that
    error, and [circuits] raises the error of the first record on which
    a collaborator fails.  The error is not annotated: when the base
    circuit of a record cannot be built, every record with the same
    couplings and occupied orbitals raises the same error, whatever its
    measurement label. *)
Theorem errors_propagate_unchanged self a st :
  objects st !! self = Some a →
  (∀ cp x st',
     _generate_circuit self cp st = (Raise x, st') →
     raised_by_collaborator (n_modes a) cp x)
  ∧ (∀ x st',
       circuits self st = (Raise x, st') →
       ∃ rs i cp cs st1,
         list_circuit_parameters self circuit_parameters st = (Ok rs, st)
         ∧ rs !! i = Some cp
         ∧ for_list (_generate_circuit self) (take i rs) st = (Ok cs, st1)
         ∧ _generate_circuit self cp st1 = (Raise x, st')
         ∧ raised_by_collaborator (n_modes a) cp x)
  ∧ (∀ cs st',
       circuits self st = (Ok cs, st') →
       ∃ rs,
         list_circuit_parameters self circuit_parameters st = (Ok rs, st)
         ∧ length cs = length rs)
  ∧ (∀ cp cp' x,
       base_circuit_value (n_modes a) (tunneling cp) (superconducting cp)
         (chemical_potential cp) (occupied_orbitals cp) = Raise x →
       key_of self cp' = key_of self cp →
       cache_get (key_of self cp) (base_cache st) = None →
       (_generate_circuit self cp st).1 = Raise x
       ∧ (_generate_circuit self cp' st).1 = Raise x)
  ∧ (∀ cp,
       (_generate_circuit self cp st).1
       = match cached_or_computed self a cp st with
         | Raise x => Raise x
         | Ok base =>
             if decide (measurement_basis cp = "pauli") then
               match measure_pauli_string base (measurement_label cp) with
               | Ok _ => Ok (Some (length (heap st)))
               | Raise x => Raise x
               end
             else Ok None
         end)
  ∧ (cache_consistent st →
     ∀ cp x,
       measurement_basis cp = "pauli" →
       record_outcome (n_modes a) cp = Raise x →
       (_generate_circuit self cp st).1 = Raise x)
  ∧ (cache_consistent st →
     ∀ rs i cp x,
       list_circuit_parameters self circuit_parameters st = (Ok rs, st) →
       rs !! i = Some cp →
       record_outcome (n_modes a) cp = Raise x →
       (∀ j cp', j < i → rs !! j = Some cp' →
          ∃ d, record_outcome (n_modes a) cp' = Ok d) →
       (circuits self st).1 = Raise x).
Proof.
  intros Ha.
  destruct (errors_come_from_collaborators self a st Ha)
    as (H1 & H2 & H3 & H4).
  split_and!; [done | done | done | done | | |].
  - intros cp.
    destruct (_generate_circuit_full self a cp st Ha)
      as (st' & mev & new & res & -> & _ & _ & _ & _ & Hcase). simpl.
    destruct (cached_or_computed self a cp st) as [base|x];
      [| by destruct Hcase as (-> & _)].
    destruct (decide _); [| by destruct Hcase as (-> & _)].
    destruct Hcase as [_ Hcase].
    by destruct (measure_pauli_string _ _); destruct Hcase as [-> _].
  - intros Hcons cp x Hb Hout.
    destruct (_generate_circuit_pure self a cp st Ha Hcons Hb) as (_ & _ & Hc).
    rewrite Hout in Hc. by destruct Hc.
  - intros Hcons rs i cp x Hrs Hi Hout Hbefore.
    rewrite (list_circuit_parameters_run self a) // in Hrs.
    injection Hrs as <-. fold (records a) in *.
    pose proof (generated_outcome self a (records a) st Ha Hcons
                  (records_pauli a)) as Hgen.
    rewrite (circuits_for_list self a) //.
    destruct (for_list _ (records a) st) as [[cs|x'] st'];
      simpl in Hgen |- *.
    + destruct Hgen as (ds & _ & Hall).
      destruct (Forall2_lookup_l _ _ _ _ _ Hall Hi) as (qc & _ & Hd).
      congruence.
    + destruct Hgen as (i' & cp' & Hi' & Hx' & Hall).
      destruct (Nat.lt_total i' i) as [Hlt|[->|Hgt]].
      * destruct (Hbefore i' cp' Hlt Hi') as [d Hd]. congruence.
      * assert (cp' = cp) as ->.
        { apply (inj Some). rewrite -Hi'. exact Hi. }
        congruence.
      * assert (take i' (records a) !! i = Some cp) as Hin
          by by rewrite lookup_take_lt.
        destruct (Forall_lookup_1 _ _ _ _ Hall Hin) as [d Hd]. congruence.
Qed.

(** C3, as amended.  No request for a circuit made by [circuits] or by
    the generator [_circuits] has a basis other than ["pauli"]: the
    records they pass to [_generate_circuit] are those of
    [circuit_parameters].  A record with another basis, handed to
    [_generate_circuit] directly, is not rejected, and no error of the
    method's own is raised: the base circuit is computed and memoized as
    for any record, its errors passed on; [measure_pauli_string] is not
    called, no circuit object is created, and [None] is returned.  The
    base circuit so memoized serves the next request for the same
    couplings and occupied orbitals. *)
Theorem unrecognized_basis_not_rejected self a st :
  objects st !! self = Some a →
  (∃ rs,
     list_circuit_parameters self circuit_parameters st = (Ok rs, st)
     ∧ Forall (λ cp, measurement_basis cp = "pauli") rs
     ∧ circuits self st = for_list (_generate_circuit self) rs st
     ∧ ∀ n : nat,
         let r := take_circuits self n _circuits st in
         (r.1.1, r.2) = for_list (_generate_circuit self) (take n rs) st)
  ∧ ∀ cp,
      measurement_basis cp ≠ "pauli" →
      (_generate_circuit self cp st).1
      = match cached_or_computed self a cp st with
        | Ok _ => Ok None
        | Raise x => Raise x
        end
      ∧ (∀ x,
           (_generate_circuit self cp st).1 = Raise x →
           cache_get (key_of self cp) (base_cache st) = None
           ∧ base_circuit_value (n_modes a) (tunneling cp)
               (superconducting cp) (chemical_potential cp)
               (occupied_orbitals cp) = Raise x)
      ∧ heap (_generate_circuit self cp st).2 = heap st
      ∧ measures (trace (_generate_circuit self cp st).2)
        = measures (trace st)
      ∧ ∀ cp',
          (_generate_circuit self cp st).1 = Ok None →
          key_of self cp' = key_of self cp →
          builds (trace (_generate_circuit self cp'
                           (_generate_circuit self cp st).2).2)
          = builds (trace (_generate_circuit self cp st).2).
Proof.
  intros Ha. split.
  { exists (records a). split_and!.
    - by apply list_circuit_parameters_run.
    - apply records_pauli.
    - by apply circuits_for_list.
    - intros n. by apply (take_circuits_for_list self a n circuit_parameters). }
  intros cp Hb.
  destruct (_generate_circuit_full self a cp st Ha)
    as (st1 & mev & new & res & Hgen & Ho & Hc & Ht & Hh & Hcase).
  rewrite Hgen. simpl.
  assert (res = match cached_or_computed self a cp st with
                | Ok _ => Ok None
                | Raise x => Raise x
                end ∧ mev = [] ∧ new = []) as (Hres & -> & ->).
  { destruct (cached_or_computed self a cp st); [| done].
    by destruct (decide _). }
  split_and!.
  - done.
  - intros x ->. unfold cached_or_computed in Hres.
    destruct (cache_get _ _); [done |].
    destruct (base_circuit_value _ _ _ _ _); [done |].
    by injection Hres as ->.
  - by rewrite Hh app_nil_r.
  - by rewrite Ht app_nil_l measures_app measures_miss_calls.
  - intros cp' Hnone Hkey. rewrite Hnone in Hres.
    destruct (cached_or_computed self a cp st) as [base|x] eqn:Hrb; [| done].
    destruct (cache_after_head (key_of self cp) base (base_cache st))
      as [c' Hhead].
    { intros w Hw. unfold cached_or_computed in Hrb. rewrite Hw in Hrb.
      congruence. }
    rewrite Hhead in Hc.
    destruct (_generate_circuit_full self a cp' st1)
      as (st2 & mev2 & new2 & res2 & -> & _ & _ & Ht2 & _ & Hcase2);
      [by rewrite Ho |].
    simpl. rewrite Ht2 /miss_calls Hkey Hc cache_get_head app_nil_l builds_app.
    assert (cached_or_computed self a cp' st1 = Ok base) as Hrb2.
    { by rewrite /cached_or_computed Hkey Hc cache_get_head. }
    rewrite Hrb2 in Hcase2.
    assert (builds mev2 = 0) as ->; [| done].
    destruct (decide (measurement_basis cp' = "pauli"));
      [by destruct Hcase2 as [-> _] |].
    by destruct Hcase2 as (_ & -> & _).
Qed.

End Properties.

(** * The scenario, run *)

Section ScenarioRuns.
#[local] Existing Instance Scenario.collaborators.
Import Scenario.

(** C4, at the scenario of the spec: the record of the second occupation
    pattern and the second label is the fourth. *)
Lemma circuits_in_nesting_order_witness :
  ∃ rs,
    list_circuit_parameters 0 circuit_parameters two_modes
      = (Ok rs, two_modes)
    ∧ rs !! 3 = Some (record 10 5 0 [0%Z] "pauli" "XX")
    ∧ circuits 0 two_modes = for_list (_generate_circuit 0) rs two_modes
    ∧ (∀ n : nat,
         let r := take_circuits 0 n _circuits two_modes in
         (r.1.1, r.2) = for_list (_generate_circuit 0) (take n rs) two_modes)
    ∧ ∀ cs st', circuits 0 two_modes = (Ok cs, st') →
        length cs = length rs
        ∧ ∀ i cp, rs !! i = Some cp →
            ∃ qc,
              cs !! i = Some (Some (0 + i))
              ∧ heap st' !! (0 + i) = Some qc
              ∧ qc_metadata qc = {[ "params" := cp ]}
              ∧ ∃ base,
                  measure_pauli_string base (measurement_label cp)
                  = Ok (qc_data qc).
Proof.
  exact (circuits_in_nesting_order 0 two_modes_attributes two_modes
           0 0 0 1 1 10%Z 5%Z 0%Z [0%Z] "XX"
           eq_refl eq_refl eq_refl eq_refl eq_refl eq_refl).
Defined.

(** C8, at the scenario of the spec. *)
Lemma circuit_carries_its_record_witness :
  ∃ rs,
    list_circuit_parameters 0 circuit_parameters two_modes
      = (Ok rs, two_modes)
    ∧ length two_modes_circuits = length rs
    ∧ NoDup two_modes_circuits
    ∧ ∀ i cp, rs !! i = Some cp →
        ∃ c qc,
          two_modes_circuits !! i = Some (Some c)
          ∧ heap two_modes_after !! c = Some qc
          ∧ qc_metadata qc = {[ "params" := cp ]}.
Proof.
  apply (circuit_carries_its_record 0 two_modes_attributes two_modes);
    [reflexivity | by vm_compute].
Defined.

(** C9, at the scenario of the spec: before and after a call of
    [circuits]. *)
Lemma circuit_parameters_restartable_witness :
  (∃ rs,
     list_circuit_parameters 0 circuit_parameters two_modes
       = (Ok rs, two_modes)
     ∧ list_circuit_parameters 0 circuit_parameters two_modes_after
       = (Ok rs, two_modes_after))
  ∧ (∀ g, (circuit_parameters_next 0 g two_modes).2 = two_modes)
  ∧ objects (circuits 0 two_modes).2 = objects two_modes.
Proof.
  apply (circuit_parameters_restartable 0 two_modes_attributes);
    [reflexivity | by vm_compute].
Defined.

(** C10, at the scenario of the spec. *)
Lemma only_pauli_records_generated_witness :
  ∃ rs,
    list_circuit_parameters 0 circuit_parameters two_modes
      = (Ok rs, two_modes)
    ∧ Forall (λ cp, measurement_basis cp = "pauli") rs
    ∧ (∀ cp st1, cp ∈ rs → (_generate_circuit 0 cp st1).1 ≠ Ok None)
    ∧ ∀ cs st', circuits 0 two_modes = (Ok cs, st') →
        Forall (λ item, ∃ c qc, item = Some c ∧ heap st' !! c = Some qc) cs.
Proof.
  exact (only_pauli_records_generated 0 two_modes_attributes two_modes eq_refl).
Defined.

(** C1 as amended, at the scenario of the spec: [2 × |labels(2)|]
    circuits, carrying pairwise distinct records. *)
Lemma circuits_cover_cross_product_witness :
  length two_modes_circuits = 4
  ∧ ∃ rs,
      carried_record two_modes_after <$> two_modes_circuits = Some <$> rs
      ∧ NoDup rs.
Proof.
  destruct (circuits_cover_cross_product 0 two_modes_attributes two_modes
              two_modes_circuits two_modes_after)
    as (Hlen & rs & Hrs & _ & Hnd); [reflexivity | by vm_compute |].
  split; [exact Hlen |]. exists rs. split; [exact Hrs |].
  apply Hnd; apply (bool_decide_unpack _); by vm_compute.
Defined.

(** C1 as stated fails when a configured sequence repeats a value: with
    the tunneling value listed twice, [circuits] returns four circuits,
    as the product of the lengths says, and the first and the third carry
    the same record. *)
Lemma repeated_axis_value_repeats_records :
  ∃ cs st' cp,
    circuits 0 repeated_tunneling = (Ok cs, st')
    ∧ length cs = 2 * 1 * 1 * 1 * 2
    ∧ (carried_record st' <$> cs) !! 0 = Some (Some cp)
    ∧ (carried_record st' <$> cs) !! 2 = Some (Some cp).
Proof.
  exists [Some 0; Some 1; Some 2; Some 3], (circuits 0 repeated_tunneling).2,
    (record 10 5 0 [] "pauli" "ZZ").
  by vm_compute.
Qed.

(** C7 as amended, at the sweep with an invalid occupation pattern. *)
Lemma generation_lazy_circuits_eager_witness :
  ∃ rs,
    list_circuit_parameters 0 circuit_parameters invalid_occupation
      = (Ok rs, invalid_occupation)
    ∧ (∀ n : nat,
         let r := take_circuits 0 n _circuits invalid_occupation in
         (r.1.1, r.2)
         = for_list (_generate_circuit 0) (take n rs) invalid_occupation)
    ∧ circuits 0 invalid_occupation
      = for_list (_generate_circuit 0) rs invalid_occupation
    ∧ (∀ (n : nat) x,
         (for_list (_generate_circuit 0) (take n rs) invalid_occupation).1
           = Raise x →
         (circuits 0 invalid_occupation).1 = Raise x)
    ∧ (∀ (n : nat) x g st',
         take_circuits 0 n _circuits invalid_occupation = (Raise x, g, st') →
         ∀ st'', _circuits_next 0 g st'' = (Ok None, CDone, st'')).
Proof.
  exact (generation_lazy_circuits_eager 0
           (attributes [0; 1] [10%Z] [5%Z] [0%Z] [[]; [7%Z]])
           invalid_occupation eq_refl).
Defined.

(** C7 as stated fails: in a sweep with one invalid occupation pattern,
    the records of the valid pattern are generated without error when
    asked for one by one, yet [circuits], the public way to the circuits,
    raises and returns none of them. *)
Lemma invalid_record_aborts_circuits :
  (circuits 0 invalid_occupation).1 = Raise InvalidOccupationError
  ∧ (_generate_circuit 0 (record 10 5 0 [] "pauli" "ZZ") invalid_occupation).1
    = Ok (Some 0)
  ∧ (_generate_circuit 0 (record 10 5 0 [] "pauli" "XX") invalid_occupation).1
    = Ok (Some 0).
Proof. by vm_compute. Qed.

(** C6 as amended, at the sweep with an invalid occupation pattern:
    [circuits] raises the error of the state preparation of the first
    record with the invalid pattern. *)
Lemma errors_propagate_unchanged_witness :
  ∃ rs i cp cs st1,
    list_circuit_parameters 0 circuit_parameters invalid_occupation
      = (Ok rs, invalid_occupation)
    ∧ rs !! i = Some cp
    ∧ for_list (_generate_circuit 0) (take i rs) invalid_occupation
      = (Ok cs, st1)
    ∧ _generate_circuit 0 cp st1
      = (Raise InvalidOccupationError, (circuits 0 invalid_occupation).2)
    ∧ raised_by_collaborator 2 cp InvalidOccupationError.
Proof.
  apply (proj1 (proj2 (errors_propagate_unchanged 0
           (attributes [0; 1] [10%Z] [5%Z] [0%Z] [[]; [7%Z]])
           invalid_occupation eq_refl))).
  by vm_compute.
Defined.

(** C6 as stated fails: two different records fail with the same error,
    which names neither. *)
Lemma error_does_not_identify_record :
  record 10 5 0 [7%Z] "pauli" "ZZ" ≠ record 10 5 0 [7%Z] "pauli" "XX"
  ∧ (_generate_circuit 0 (record 10 5 0 [7%Z] "pauli" "ZZ")
       invalid_occupation).1 = Raise InvalidOccupationError
  ∧ (_generate_circuit 0 (record 10 5 0 [7%Z] "pauli" "XX")
       invalid_occupation).1 = Raise InvalidOccupationError.
Proof. split; [by intros [=] | by vm_compute]. Qed.

(** C3 as stated fails: handed a record whose basis is not ["pauli"],
    [_generate_circuit] raises nothing, [InvalidLabelError] or other, and
    returns [None], the absent circuit. *)
Theorem unrecognized_basis_returns_None :
  (_generate_circuit 0 (record 10 5 0 [] "clifford" "ZZ") two_modes).1
  = Ok None.
Proof. by vm_compute. Qed.

(** C3 as amended, at the scenario of the spec and a record of another
    basis. *)
Lemma unrecognized_basis_not_rejected_witness :
  let cp := record 10 5 0 [] "clifford" "ZZ" in
  (_generate_circuit 0 cp two_modes).1
  = match cached_or_computed 0 two_modes_attributes cp two_modes with
    | Ok _ => Ok None
    | Raise x => Raise x
    end
  ∧ heap (_generate_circuit 0 cp two_modes).2 = heap two_modes
  ∧ measures (trace (_generate_circuit 0 cp two_modes).2)
    = measures (trace two_modes)
  ∧ builds (trace (_generate_circuit 0 (record 10 5 0 [] "pauli" "ZZ")
                     (_generate_circuit 0 cp two_modes).2).2)
    = builds (trace (_generate_circuit 0 cp two_modes).2).
Proof.
  destruct (unrecognized_basis_not_rejected 0 two_modes_attributes two_modes
              eq_refl) as [_ Hother].
  destruct (Hother (record 10 5 0 [] "clifford" "ZZ"))
    as (Hres & _ & Hheap & Hm & Hreuse); [by intros [=] |].
  split_and!; [exact Hres | exact Hheap | exact Hm |].
  apply Hreuse; [by vm_compute | reflexivity].
Defined.

(** C5 as amended, at the first call for the empty pattern in the
    scenario of the spec. *)
Lemma hamiltonian_built_on_every_miss_witness :
  count_event (H := collaborators) (0, CallKitaevHamiltonian 2 10%Z 5%Z 0%Z)
    (trace (_base_circuit 0 10%Z 5%Z 0%Z [] two_modes).2)
  = count_event (H := collaborators) (0, CallKitaevHamiltonian 2 10%Z 5%Z 0%Z)
      (trace two_modes) + 1
  ∧ count_event (H := collaborators) (0, CallDiagonalize 2 10%Z 5%Z 0%Z)
      (trace (_base_circuit 0 10%Z 5%Z 0%Z [] two_modes).2)
    = count_event (H := collaborators) (0, CallDiagonalize 2 10%Z 5%Z 0%Z)
        (trace two_modes) + 1.
Proof.
  exact (hamiltonian_built_on_every_miss 0 two_modes_attributes
           10%Z 5%Z 0%Z [] two_modes eq_refl).
Defined.

(** C5 as stated fails: in the scenario of the spec the two occupation
    patterns share the one coupling triple, and the Hamiltonian is built
    and diagonalized twice. *)
Lemma hamiltonian_rebuilt_per_occupation :
  (circuits 0 two_modes).1 = Ok two_modes_circuits
  ∧ count_event (H := collaborators) (0, CallKitaevHamiltonian 2 10%Z 5%Z 0%Z)
      (trace two_modes_after) = 2
  ∧ count_event (H := collaborators) (0, CallDiagonalize 2 10%Z 5%Z 0%Z)
      (trace two_modes_after) = 2.
Proof. by vm_compute. Qed.

(** C2 as amended, at four requests in the scenario of the spec. *)
Lemma base_circuit_computed_once_within_capacity_witness :
  let ev : Event :=
    (0, CallFermionicGaussianState (H := collaborators) 2 10%Z 5%Z 0%Z []) in
  count_event ev (trace (run_requests four_requests two_modes))
    ≤ count_event ev (trace two_modes) + 1
  ∧ length (base_cache (run_requests four_requests two_modes)) ≤ lru_maxsize
  ∧ base_cache
      (_generate_circuit 0 (record 10 5 0 [] "pauli" "ZZ") two_modes).2
    = [((0, 10%Z, 5%Z, 0%Z, []), (2, 10%Z, 5%Z, 0%Z, []))].
Proof.
  destruct (base_circuit_computed_once_within_capacity four_requests 0
              two_modes_attributes 10%Z 5%Z 0%Z [] (2, 10%Z, 5%Z, 0%Z, [])
              two_modes) as (Honce & _ & Hbound & Hstep).
  - reflexivity.
  - reflexivity.
  - apply NoDup_nil_2.
  - vm_compute. lia.
  - repeat apply Forall_cons_2; try apply Forall_nil_2; by eexists.
  - split_and!.
    + apply Honce. vm_compute. lia.
    + exact Hbound.
    + exact (Hstep 0 two_modes_attributes (record 10 5 0 [] "pauli" "ZZ")
               eq_refl).
Defined.

(** C2 as stated fails: the table is bounded.  In a sweep over 129
    chemical potentials, a second call of [circuits] on the same instance
    finds none of the base circuits of the first call in the table when
    it asks for them, and the base circuit of the first chemical
    potential is computed a second time; the table holds 128 entries. *)
Lemma base_circuit_recomputed_after_eviction :
  let st1 := (circuits 0 long_sweep).2 in
  let st2 := (circuits 0 st1).2 in
  let ev : Event :=
    (0, CallFermionicGaussianState (H := collaborators) 2 10%Z 5%Z 0%Z []) in
  (∃ cs, (circuits 0 long_sweep).1 = Ok cs ∧ length cs = 258)
  ∧ count_event ev (trace st1) = 1
  ∧ count_event ev (trace st2) = 2
  ∧ length (base_cache st1) = 128
  ∧ length (base_cache st2) = 128.
Proof.
  split.
  - eexists. split; [by vm_compute | by vm_compute].
  - by vm_compute.
Qed.

(** ** Further properties, at the scenario *)

(** X1, at the scenario of the spec. *)
Lemma memo_table_keeps_shape_witness :
  table_ok initial_state
  ∧ table_ok
      (KitaevHamiltonianExperiment "exp2" [0; 1] [10%Z] [5%Z] [0%Z] [[]]
         None two_modes).2
  ∧ table_ok
      (_generate_circuit 0 (record 10 5 0 [] "pauli" "ZZ") two_modes).2
  ∧ table_ok (circuits 0 two_modes).2.
Proof.
  apply (memo_table_keeps_shape 0 two_modes_attributes).
  - reflexivity.
  - split; [apply NoDup_nil_2 | vm_compute; lia].
Defined.

(** X2, at the scenario of the spec. *)
Lemma memoization_transparent_witness :
  cache_consistent initial_state
  ∧ cache_consistent
      (KitaevHamiltonianExperiment "exp2" [0; 1] [10%Z] [5%Z] [0%Z] [[]]
         None two_modes).2
  ∧ cache_consistent
      (_generate_circuit 0 (record 10 5 0 [] "pauli" "ZZ") two_modes).2
  ∧ cache_consistent (circuits 0 two_modes).2
  ∧ (_base_circuit 0 10%Z 5%Z 0%Z [0%Z] two_modes).1
    = base_circuit_value (H := collaborators) 2 10%Z 5%Z 0%Z [0%Z].
Proof.
  apply (memoization_transparent 0 two_modes_attributes).
  - reflexivity.
  - intros self t s mu occ v Hin. by apply elem_of_nil in Hin.
Defined.

(** X3, at the first base circuit of the scenario of the spec. *)
Lemma base_circuit_remembered_witness :
  ∃ st2,
    _base_circuit 0 10%Z 5%Z 0%Z [] (_base_circuit 0 10%Z 5%Z 0%Z [] two_modes).2
      = (Ok (2, 10%Z, 5%Z, 0%Z, []), st2)
    ∧ trace st2 = trace (_base_circuit 0 10%Z 5%Z 0%Z [] two_modes).2
    ∧ heap st2 = heap (_base_circuit 0 10%Z 5%Z 0%Z [] two_modes).2
    ∧ objects st2 = objects (_base_circuit 0 10%Z 5%Z 0%Z [] two_modes).2.
Proof.
  apply (base_circuit_remembered 0 two_modes_attributes 10%Z 5%Z 0%Z []
           two_modes); [reflexivity | by vm_compute].
Defined.

(** X4, at the invalid occupation pattern. *)
Lemma base_circuit_failure_not_remembered_witness :
  let st1 := (_base_circuit 0 10%Z 5%Z 0%Z [7%Z] invalid_occupation).2 in
  base_cache st1 = base_cache invalid_occupation
  ∧ ∃ st2,
      _base_circuit 0 10%Z 5%Z 0%Z [7%Z] st1
        = (Raise InvalidOccupationError, st2)
      ∧ base_cache st2 = base_cache invalid_occupation
      ∧ builds (trace st1) = builds (trace invalid_occupation) + 1
      ∧ builds (trace st2) = builds (trace invalid_occupation) + 2.
Proof.
  apply (base_circuit_failure_not_remembered 0
           (attributes [0; 1] [10%Z] [5%Z] [0%Z] [[]; [7%Z]])
           10%Z 5%Z 0%Z [7%Z] invalid_occupation);
    [reflexivity | by vm_compute].
Defined.

(** X5, at two experiments of the same couplings. *)
Lemma base_circuit_not_shared_between_instances_witness :
  let st1 := (_base_circuit 0 10%Z 5%Z 0%Z [] two_instances).2 in
  let st2 := (_base_circuit 1 10%Z 5%Z 0%Z [] st1).2 in
  (_base_circuit 1 10%Z 5%Z 0%Z [] st1).1
    = base_circuit_value (H := collaborators) 2 10%Z 5%Z 0%Z []
  ∧ trace st2
    = base_circuit_calls (H := collaborators) 1 2 10%Z 5%Z 0%Z [] ++ trace st1
  ∧ builds (trace st2) = builds (trace st1) + 1.
Proof.
  apply (base_circuit_not_shared_between_instances 0 1 two_modes_attributes
           (attributes [0; 1] [10%Z] [5%Z] [0%Z] [[]])
           10%Z 5%Z 0%Z [] two_instances).
  - reflexivity.
  - reflexivity.
  - by intros [=].
  - apply not_elem_of_nil.
Defined.

(** X6, at the scenario of the spec. *)
Lemma one_build_per_sweep_point_witness :
  builds (trace (circuits 0 two_modes).2)
  ≤ builds (trace two_modes) + 1 * 1 * 1 * 2.
Proof.
  exact (one_build_per_sweep_point 0 two_modes_attributes two_modes eq_refl).
Defined.

(** X7, at the scenario of the spec. *)
Lemma one_measurement_per_circuit_witness :
  measures (trace two_modes_after)
  = measures (trace two_modes) + length two_modes_circuits.
Proof.
  apply (one_measurement_per_circuit 0 two_modes_attributes two_modes);
    [reflexivity | by vm_compute].
Defined.

(** X8, after a first call of [circuits] in the scenario of the spec. *)
Lemma circuits_are_new_objects_witness :
  (∀ c qc, heap two_modes_after !! c = Some qc →
     heap (circuits 0 two_modes_after).2 !! c = Some qc)
  ∧ ∀ cs1 st1 cs2 st2,
      circuits 0 two_modes_after = (Ok cs1, st1) →
      circuits 0 st1 = (Ok cs2, st2) →
      (∀ item, item ∈ cs1 → item ∉ cs2)
      ∧ (∀ item, item ∈ cs1 →
           carried_record st2 item = carried_record st1 item).
Proof.
  apply (circuits_are_new_objects 0 two_modes_attributes two_modes_after).
  by vm_compute.
Defined.

(** X9, at the sweep with an invalid occupation pattern. *)
Lemma circuits_outcome_witness :
  ∃ rs,
    list_circuit_parameters 0 circuit_parameters invalid_occupation
      = (Ok rs, invalid_occupation)
    ∧ match (circuits 0 invalid_occupation).1 with
      | Ok cs =>
          length cs = length rs
          ∧ ∀ i cp, rs !! i = Some cp →
              ∃ c qc,
                cs !! i = Some (Some c)
                ∧ heap (circuits 0 invalid_occupation).2 !! c = Some qc
                ∧ record_outcome 2 cp = Ok (qc_data qc)
      | Raise x =>
          ∃ i cp,
            rs !! i = Some cp
            ∧ record_outcome 2 cp = Raise x
            ∧ ∀ j cp', j < i → rs !! j = Some cp' →
                ∃ d, record_outcome 2 cp' = Ok d
      end
    ∧ ((∃ cs, (circuits 0 invalid_occupation).1 = Ok cs)
       ↔ ∀ cp, cp ∈ rs → ∃ d, record_outcome 2 cp = Ok d).
Proof.
  apply (circuits_outcome 0
           (attributes [0; 1] [10%Z] [5%Z] [0%Z] [[]; [7%Z]])
           invalid_occupation).
  - reflexivity.
  - intros self t s mu occ v Hin. by apply elem_of_nil in Hin.
Defined.

(** X12, at a sweep without tunneling values. *)
Lemma empty_sweep_generates_nothing_witness :
  circuits 0 empty_sweep = (Ok [], empty_sweep)
  ∧ list_circuit_parameters 0 circuit_parameters empty_sweep
    = (Ok [], empty_sweep).
Proof.
  apply (empty_sweep_generates_nothing 0
           (attributes [0; 1] [] [5%Z] [0%Z] [[]]) empty_sweep).
  - reflexivity.
  - by left.
Defined.

(** X10, after three items in the scenario of the spec. *)
Lemma generator_resumes_where_it_stopped_witness :
  let r := take_circuits 0 3 _circuits two_modes in
  circuits 0 two_modes
  = match list_circuits 0 r.1.2 r.2 with
    | (Ok rest, st2) => (Ok ([Some 0; Some 1; Some 2] ++ rest), st2)
    | (Raise x, st2) => (Raise x, st2)
    end.
Proof.
  apply (generator_resumes_where_it_stopped 0 two_modes_attributes 3
           two_modes); [reflexivity | by vm_compute].
Defined.

End ScenarioRuns.
